(** * UmaTextGenerator: the quote-card canvas module (wwwroot/canvas.js)

    A shallow embedding of [canvas.js] and the properties of its line
    wrapper, its anchor arithmetic, its resource loaders and its renderer.

    Conventions of the embedding.
    - A JavaScript string is the list of its UTF-16 code units.
    - A JavaScript number is [num]: NaN, the two infinities, or a finite
      rational.  Comparison, [Math.max], [Math.min] and [Number.isFinite]
      are exact on doubles, so they are modelled exactly; the arithmetic
      operators are modelled without rounding.
    - Text widths reported by the drawing context are finite rationals.
    - The browser (DOM, object URLs, image and font decoding) is a [World]
      value threaded through the operations together with a [Platform]
      record that answers what the browser would answer. *)

From Stdlib Require Import Strings.String Strings.Ascii.
From Stdlib Require Import QArith Qround Lqa.
From stdpp Require Import base list gmap.

Local Open Scope bool_scope.

(** ** JavaScript strings *)

Abbreviation jstring := (list N).

(** A literal, for ASCII text. *)
Definition js (s : string) : jstring :=
  map N_of_ascii (list_ascii_of_string s).

Module Str.

(** The characters matched by the regular expression class [\s] and removed
    by [trimStart]/[trimEnd]: ECMAScript WhiteSpace and LineTerminator. *)
Definition is_ws (c : N) : bool :=
  ((9 <=? c) && (c <=? 13))%N
  || (c =? 32)%N || (c =? 160)%N || (c =? 5760)%N
  || ((8192 <=? c) && (c <=? 8202))%N
  || (c =? 8232)%N || (c =? 8233)%N || (c =? 8239)%N || (c =? 8287)%N
  || (c =? 12288)%N || (c =? 65279)%N.

(** [s.length === 0] *)
Definition is_empty (s : jstring) : bool :=
  match s with [] => true | _ => false end.

(** [s.trimStart()] *)
Fixpoint trimStart (s : jstring) : jstring :=
  match s with
  | [] => []
  | c :: s' => if is_ws c then trimStart s' else s
  end.

(** [s.trimEnd()] *)
Definition trimEnd (s : jstring) : jstring := rev (trimStart (rev s)).

(** [s.replace(/\r\n/g, "\n")] *)
Fixpoint replace_crlf (s : jstring) : jstring :=
  match s with
  | [] => []
  | c :: s' =>
      match s' with
      | d :: s'' =>
          if ((c =? 13) && (d =? 10))%N then 10%N :: replace_crlf s''
          else c :: replace_crlf s'
      | [] => [c]
      end
  end.

(** [s.split("\n")]: the pieces between line feeds; the empty string gives
    one empty piece. *)
Fixpoint split_lf (s : jstring) : list jstring :=
  match s with
  | [] => [[]]
  | c :: s' =>
      if (c =? 10)%N then [] :: split_lf s'
      else match split_lf s' with
           | p :: ps => (c :: p) :: ps
           | [] => [[c]]
           end
  end.

(** [s.split(/(\s+)/)]: the pieces between maximal whitespace runs, with the
    runs themselves kept (the capture group), so pieces and runs alternate
    and the result starts and ends with a piece, possibly empty.
    [split_ws_from in_ws cur s] scans [s] with the token read so far held
    reversed in [cur]; [in_ws] tells whether that token is a run. *)
Fixpoint split_ws_from (in_ws : bool) (cur : jstring) (s : jstring)
  : list jstring :=
  match s with
  | [] => if in_ws then [rev cur; []] else [rev cur]
  | c :: s' =>
      if is_ws c then
        if in_ws then split_ws_from true (c :: cur) s'
        else rev cur :: split_ws_from true [c] s'
      else
        if in_ws then rev cur :: split_ws_from false [c] s'
        else split_ws_from false (c :: cur) s'
  end.

Definition split_ws (s : jstring) : list jstring := split_ws_from false [] s.

(** Surrogate halves. *)
Definition is_high (c : N) : bool := ((55296 <=? c) && (c <=? 56319))%N.
Definition is_low (c : N) : bool := ((56320 <=? c) && (c <=? 57343))%N.

(** The string iterator ([for (const ch of s)]): one string per code point,
    a surrogate pair staying together, a lone surrogate standing alone. *)
Fixpoint codePoints (s : jstring) : list jstring :=
  match s with
  | [] => []
  | c :: s' =>
      match s' with
      | d :: s'' =>
          if is_high c && is_low d then [c; d] :: codePoints s''
          else [c] :: codePoints s'
      | [] => [[c]]
      end
  end.

(** A string that is exactly one character for the iterator. *)
Definition single_char (s : jstring) : Prop := codePoints s = [s].

(** The non-whitespace content of a string. *)
Definition nonws (s : jstring) : jstring :=
  List.filter (fun c => negb (is_ws c)) s.

End Str.

(** ** The line wrapper *)

Module Wrap.
Import Str.

Section WithMeasure.

(** [ctx.measureText(s).width] under the font active in [ctx]. *)
Variable measureText : jstring -> Q.
Variable maxWidth : Q.

(** [ctx.measureText(s).width <= maxWidth] *)
Definition fits (s : jstring) : bool := Qle_bool (measureText s) maxWidth.

(** One turn of the loop over [words]; the state is the line being built
    and the array [lines]. *)
Definition word_step (st : jstring * list jstring) (w : jstring)
  : jstring * list jstring :=
  let '(line, lines) := st in
  let test := line ++ w in
  if fits test || is_empty line then (test, lines)
  else (trimStart w, lines ++ [trimEnd line]).

(** One turn of the loop over [raw]. *)
Definition paragraph_step (lines : list jstring) (paragraph : jstring)
  : list jstring :=
  if is_empty paragraph then lines ++ [js " "]
  else
    let '(line, lines') :=
      fold_left word_step (split_ws paragraph) ([], lines) in
    if negb (is_empty line) then lines' ++ [trimEnd line] else lines'.

(** One turn of the loop over the characters of an over-wide line; the
    state is [buf] and the array [fixed]. *)
Definition char_step (st : jstring * list jstring) (ch : jstring)
  : jstring * list jstring :=
  let '(buf, fixed) := st in
  let test := buf ++ ch in
  if fits test || is_empty buf then (test, fixed)
  else (ch, fixed ++ [buf]).

(** One turn of the loop over [lines] (the fallback pass). *)
Definition line_step (fixed : list jstring) (l : jstring) : list jstring :=
  if fits l then fixed ++ [l]
  else
    let '(buf, fixed') := fold_left char_step (codePoints l) ([], fixed) in
    if negb (is_empty buf) then fixed' ++ [buf] else fixed'.

(** [l => (l === "" ? " " : l)] *)
Definition blank_to_space (l : jstring) : jstring :=
  if is_empty l then js " " else l.

(** The function after [raw] has been computed. *)
Definition wrapParagraphs (raw : list jstring) : list jstring :=
  let lines := fold_left paragraph_step raw [] in
  let fixed := fold_left line_step lines [] in
  map blank_to_space fixed.

(** [(text ?? "").replace(/\r\n/g, "\n").split("\n")] *)
Definition paragraphs (text : option jstring) : list jstring :=
  split_lf (replace_crlf (default [] text)).

(** [wrapLines(ctx, text, maxWidth)]; [None] is a nullish [text]. *)
Definition wrapLines (text : option jstring) : list jstring :=
  wrapParagraphs (paragraphs text).

(** Two notions for the proofs.  Both inner loops are the same greedy
    accumulation; they differ in how a committed line and the token that
    starts the next one are trimmed. *)
Definition greedy_step (start commit : jstring -> jstring)
    (st : jstring * list jstring) (x : jstring) : jstring * list jstring :=
  let '(cur, out) := st in
  if fits (cur ++ x) || is_empty cur then (cur ++ x, out)
  else (start x, out ++ [commit cur]).

(** A line is acceptable when it fits or is one character. *)
Definition fits_or_single (l : jstring) : Prop :=
  fits l = true \/ single_char l.

End WithMeasure.

End Wrap.


(** ** JavaScript numbers and values *)

Module Num.

Inductive num : Type :=
| NaN
| PInf
| NInf
| Fin (q : Q).

(** [Number.isFinite] *)
Definition isFinite (n : num) : bool :=
  match n with Fin _ => true | _ => false end.

(** [a <= b], false as soon as one side is NaN. *)
Definition leb (a b : num) : bool :=
  match a, b with
  | NaN, _ | _, NaN => false
  | NInf, _ => true
  | _, PInf => true
  | Fin x, Fin y => Qle_bool x y
  | _, _ => false
  end.

Definition max (a b : num) : num :=
  match a, b with
  | NaN, _ | _, NaN => NaN
  | _, _ => if leb a b then b else a
  end.

Definition min (a b : num) : num :=
  match a, b with
  | NaN, _ | _, NaN => NaN
  | _, _ => if leb a b then a else b
  end.

Definition neg (a : num) : num :=
  match a with
  | NaN => NaN
  | PInf => NInf
  | NInf => PInf
  | Fin q => Fin (- q)
  end.

Definition add (a b : num) : num :=
  match a, b with
  | NaN, _ | _, NaN => NaN
  | PInf, NInf | NInf, PInf => NaN
  | PInf, _ | _, PInf => PInf
  | NInf, _ | _, NInf => NInf
  | Fin x, Fin y => Fin (x + y)
  end.

Definition sub (a b : num) : num := add a (neg b).

(** The sign of a number that is not NaN. *)
Definition sign (a : num) : comparison :=
  match a with
  | NaN => Eq
  | PInf => Gt
  | NInf => Lt
  | Fin q => (q ?= 0)%Q
  end.

Definition mul (a b : num) : num :=
  match a, b with
  | NaN, _ | _, NaN => NaN
  | Fin x, Fin y => Fin (x * y)
  | _, _ =>
      match sign a, sign b with
      | Eq, _ | _, Eq => NaN
      | Gt, Gt | Lt, Lt => PInf
      | _, _ => NInf
      end
  end.

(** [Math.round]: the nearest integer, halves going up. *)
Definition round (a : num) : num :=
  match a with
  | Fin q => Fin (inject_Z (Qfloor (q + (1 # 2))))
  | _ => a
  end.

Definition of_N (n : N) : num := Fin (inject_Z (Z.of_N n)).
Definition of_nat (n : nat) : num := Fin (inject_Z (Z.of_nat n)).

End Num.

Export Num(num, NaN, PInf, NInf, Fin).

(** The values an option of the host can hold. *)
Inductive jsval : Type :=
| VUndefined
| VNull
| VBool (b : bool)
| VNum (n : num)
| VStr (s : jstring).

(** What the browser answers.  String-number conversions, text metrics and
    the decoding of images and fonts are not part of the module; every
    operation takes the answers from a [Platform]. *)
Record ImageDims : Type := {
  d_naturalWidth : N;
  d_naturalHeight : N;
  d_width : N;
  d_height : N;
}.

Record Platform : Type := {
  (** [Number(s)] for a string [s] *)
  stringToNumber : jstring -> num;
  (** [String(n)] for a number [n] *)
  numberToString : num -> jstring;
  (** [ctx.measureText(s).width] once [ctx.font] was set to a bold font of
      the given size and family *)
  textWidth : num -> jstring -> jstring -> Q;
  (** the outcome of decoding an image given as bytes: its dimensions, or
      [None] when the element fires [onerror] *)
  decodeImage : list Byte.byte -> option ImageDims;
  (** the same for an image given by its location *)
  fetchImage : jstring -> option ImageDims;
  (** whether [FontFace.load()] resolves, for a font given as bytes under a
      family name *)
  loadFontBytes : list Byte.byte -> jstring -> bool;
  (** the same for a font given by its location and weight *)
  loadFontUrl : jstring -> jstring -> jsval -> bool;
}.

Module Val.

(** [Number(v)] *)
Definition toNumber (P : Platform) (v : jsval) : num :=
  match v with
  | VUndefined => NaN
  | VNull => Fin 0
  | VBool b => if b then Fin 1 else Fin 0
  | VNum n => n
  | VStr s => stringToNumber P s
  end.

(** [String(v)] *)
Definition toString (P : Platform) (v : jsval) : jstring :=
  match v with
  | VUndefined => js "undefined"
  | VNull => js "null"
  | VBool b => if b then js "true" else js "false"
  | VNum n => numberToString P n
  | VStr s => s
  end.

(** [!!v] *)
Definition truthy (v : jsval) : bool :=
  match v with
  | VUndefined | VNull => false
  | VBool b => b
  | VNum (Fin q) => negb (Qeq_bool q 0)
  | VNum NaN => false
  | VNum _ => true
  | VStr s => negb (Str.is_empty s)
  end.

(** [v ?? d] *)
Definition nullish (v d : jsval) : jsval :=
  match v with
  | VUndefined | VNull => d
  | _ => v
  end.

(** [a - b] *)
Definition minus (P : Platform) (a b : jsval) : jsval :=
  VNum (Num.sub (toNumber P a) (toNumber P b)).

(** [a + b]: concatenation as soon as one side is a string. *)
Definition plus (P : Platform) (a b : jsval) : jsval :=
  match a, b with
  | VStr s, _ => VStr (s ++ toString P b)
  | _, VStr t => VStr (toString P a ++ t)
  | _, _ => VNum (Num.add (toNumber P a) (toNumber P b))
  end.

End Val.

(** ** Anchor arithmetic *)

(** [clamp01(v)] *)
Definition clamp01 (P : Platform) (v : jsval) : num :=
  let v := Val.toNumber P v in
  if negb (Num.isFinite v) then Fin 0
  else Num.max (Fin 0) (Num.min (Fin 1) v).

(** [lerp(a, b, t)] *)
Definition lerp (a b t : num) : num :=
  Num.add a (Num.mul (Num.sub b a) t).

(** A number of the unit interval. *)
Definition in_unit (n : num) : Prop :=
  exists q, n = Fin q /\ (0 <= q <= 1)%Q.

(** ** The browser state and the module state *)

(** An object URL ([blob:...]).  The browser never hands out the empty
    string, so such a URL is always truthy. *)
Abbreviation Url := nat.

Inductive ImgSrc : Type :=
| SrcBlob (u : Url)
| SrcLocation (s : jstring).

(** An [HTMLImageElement] that finished loading. *)
Record Image : Type := {
  img_src : ImgSrc;
  naturalWidth : N;
  naturalHeight : N;
  width : N;
  height : N;
}.

Definition mkImage (src : ImgSrc) (d : ImageDims) : Image :=
  {| img_src := src;
     naturalWidth := d_naturalWidth d; naturalHeight := d_naturalHeight d;
     width := d_width d; height := d_height d |}.

(** The module never sets the [width]/[height] attributes of an image and
    never inserts it in the document; for such an element the two getters
    report the natural size. *)
Definition detached (img : Image) : Prop :=
  width img = naturalWidth img /\ height img = naturalHeight img.

(** The variable [_state]; [fontLoaded] is absent until [loadBundledFont]
    adds it. *)
Record RenderState : Type := {
  bgImg : option Image;
  bgObjectUrl : option Url;
  fontFamily : option jstring;
  customFontFamily : option jstring;
  separatorImg : option Image;
  fontLoaded : option bool;
}.

Definition initial_state : RenderState :=
  {| bgImg := None; bgObjectUrl := None; fontFamily := None;
     customFontFamily := None; separatorImg := None; fontLoaded := None |}.

(** A canvas element: whether [getContext("2d")] gives a context, and its
    pixel size. *)
Record Canvas : Type := {
  has2d : bool;
  cv_width : N;
  cv_height : N;
}.

(** What happens to object URLs and to the slot [_state.bgObjectUrl], in
    order. *)
Inductive Event : Type :=
| EvCreate (u : Url)
| EvRevoke (u : Url)
| EvSetBgObjectUrl (u : option Url).

Record World : Type := {
  state : RenderState;
  elements : gmap (list N) Canvas;
  nextUrl : Url;
  fonts : list jstring;
  events : list Event;
}.

Definition initial_world (els : gmap (list N) Canvas) : World :=
  {| state := initial_state; elements := els; nextUrl := 0;
     fonts := []; events := [] |}.

(** *** Reading the event log *)

Module Log.

(** The handles that were put in the slot [_state.bgObjectUrl] and have not
    been released since. *)
Definition live_step (acc : list Url) (e : Event) : list Url :=
  match e with
  | EvCreate _ => acc
  | EvRevoke u => List.filter (fun v => negb (Nat.eqb u v)) acc
  | EvSetBgObjectUrl (Some u) => acc ++ [u]
  | EvSetBgObjectUrl None => acc
  end.

Definition bg_live (log : list Event) : list Url := fold_left live_step log [].

(** The releases, in order. *)
Definition revoked (log : list Event) : list Url :=
  flat_map (fun e => match e with EvRevoke u => [u] | _ => [] end) log.

(** [p] is a point in time of the log [l]. *)
Definition prefix_of (p l : list Event) : Prop := exists q, l = p ++ q.

End Log.

(** *** Operations with effects *)

Inductive Result (A : Type) : Type :=
| Ok (a : A)
| Throw (msg : jstring).
Arguments Ok {A} a.
Arguments Throw {A} msg.

Module Eff.

(** A computation runs on the world and either returns or throws; what it
    did before throwing stays done. *)
Definition M (A : Type) : Type := World -> Result A * World.

Definition ret {A : Type} (a : A) : M A := fun w => (Ok a, w).

Definition throw {A : Type} (msg : jstring) : M A := fun w => (Throw msg, w).

Definition bind {A B : Type} (m : M A) (k : A -> M B) : M B :=
  fun w =>
    match m w with
    | (Ok a, w') => k a w'
    | (Throw msg, w') => (Throw msg, w')
    end.

(** [try { m } catch { }] *)
Definition try_catch (m : M unit) : M unit :=
  fun w =>
    match m w with
    | (Ok a, w') => (Ok a, w')
    | (Throw _, w') => (Ok tt, w')
    end.

Definition get_state : M RenderState := fun w => (Ok (state w), w).

Definition modify_state (f : RenderState -> RenderState) : M unit :=
  fun w =>
    (Ok tt, {| state := f (state w); elements := elements w;
               nextUrl := nextUrl w; fonts := fonts w;
               events := events w |}).

Definition emit (e : Event) : M unit :=
  fun w =>
    (Ok tt, {| state := state w; elements := elements w;
               nextUrl := nextUrl w; fonts := fonts w;
               events := events w ++ [e] |}).

End Eff.

#[global] Instance M_ret : MRet Eff.M := @Eff.ret.
#[global] Instance M_bind : MBind Eff.M := fun A B k m => Eff.bind m k.

Module Dom.
Import Eff.

(** [document.getElementById(id)] *)
Definition getElementById (id : jstring) : M (option Canvas) :=
  fun w => (Ok (elements w !! id), w).

(** [URL.createObjectURL(blob)]: a URL never handed out before. *)
Definition createObjectURL : M Url :=
  fun w =>
    (Ok (nextUrl w),
     {| state := state w; elements := elements w;
        nextUrl := S (nextUrl w); fonts := fonts w;
        events := events w ++ [EvCreate (nextUrl w)] |}).

(** [URL.revokeObjectURL(url)] *)
Definition revokeObjectURL (u : Url) : M unit := emit (EvRevoke u).

(** [canvas.width = w; canvas.height = h] on the element with that id. *)
Definition resize (id : jstring) (c : Canvas) (w h : N) : M unit :=
  fun wd =>
    (Ok tt, {| state := state wd;
               elements := <[id := {| has2d := has2d c; cv_width := w;
                                      cv_height := h |}]> (elements wd);
               nextUrl := nextUrl wd; fonts := fonts wd;
               events := events wd |}).

(** [document.fonts.add(font)] *)
Definition fonts_add (family : jstring) : M unit :=
  fun w =>
    (Ok tt, {| state := state w; elements := elements w;
               nextUrl := nextUrl w; fonts := fonts w ++ [family];
               events := events w |}).

(** Awaiting a promise that resolves with [a] or rejects with [msg]. *)
Definition await {A : Type} (outcome : option A) (msg : jstring) : M A :=
  match outcome with
  | Some a => ret a
  | None => throw msg
  end.

End Dom.

(** ** The loaders *)

Module Loader.
Import Eff Dom.

Definition set_bgObjectUrl (u : option Url) : M unit :=
  modify_state (fun s =>
    {| bgImg := bgImg s; bgObjectUrl := u; fontFamily := fontFamily s;
       customFontFamily := customFontFamily s;
       separatorImg := separatorImg s; fontLoaded := fontLoaded s |});;
  emit (EvSetBgObjectUrl u).

Definition set_bgImg (i : option Image) : M unit :=
  modify_state (fun s =>
    {| bgImg := i; bgObjectUrl := bgObjectUrl s; fontFamily := fontFamily s;
       customFontFamily := customFontFamily s;
       separatorImg := separatorImg s; fontLoaded := fontLoaded s |}).

Definition set_fontFamily (f : option jstring) : M unit :=
  modify_state (fun s =>
    {| bgImg := bgImg s; bgObjectUrl := bgObjectUrl s; fontFamily := f;
       customFontFamily := customFontFamily s;
       separatorImg := separatorImg s; fontLoaded := fontLoaded s |}).

Definition set_customFontFamily (f : option jstring) : M unit :=
  modify_state (fun s =>
    {| bgImg := bgImg s; bgObjectUrl := bgObjectUrl s;
       fontFamily := fontFamily s; customFontFamily := f;
       separatorImg := separatorImg s; fontLoaded := fontLoaded s |}).

Definition set_separatorImg (i : option Image) : M unit :=
  modify_state (fun s =>
    {| bgImg := bgImg s; bgObjectUrl := bgObjectUrl s;
       fontFamily := fontFamily s; customFontFamily := customFontFamily s;
       separatorImg := i; fontLoaded := fontLoaded s |}).

Definition set_fontLoaded (b : option bool) : M unit :=
  modify_state (fun s =>
    {| bgImg := bgImg s; bgObjectUrl := bgObjectUrl s;
       fontFamily := fontFamily s; customFontFamily := customFontFamily s;
       separatorImg := separatorImg s; fontLoaded := b |}).

(** [revokeObjectUrl(url)] *)
Definition revokeObjectUrl (url : option Url) : M unit :=
  try_catch (match url with
             | Some u => revokeObjectURL u
             | None => ret tt
             end).

(** [a || b] on pixel sizes *)
Definition or_else (a b : N) : N := if (a =? 0)%N then b else a.

(** [loadBundledFont(family, url, weight)]; the reason of a rejected font
    load is the browser's, its text here is a placeholder. *)
Definition loadBundledFont (P : Platform) (family url : jstring)
    (weight : jsval) : M unit :=
  await (if loadFontUrl P url family weight then Some tt else None)
        (js "font load failed");;
  fonts_add family;;
  set_fontFamily (Some family);;
  set_fontLoaded (Some true).

(** [setBackgroundImageFromBytes(canvasId, bytes)] *)
Definition setBackgroundImageFromBytes (P : Platform) (canvasId : jstring)
    (bytes : list Byte.byte) : M unit :=
  el ← getElementById canvasId;
  match el with
  | None => throw (js "canvas not found")
  | Some canvas =>
      url ← createObjectURL;
      img ← await (mkImage (SrcBlob url) <$> decodeImage P bytes)
                   (js "failed to load image");
      s ← get_state;
      revokeObjectUrl (bgObjectUrl s);;
      set_bgObjectUrl (Some url);;
      set_bgImg (Some img);;
      resize canvasId canvas
        (or_else (naturalWidth img) (width img))
        (or_else (naturalHeight img) (height img))
  end.

(** [loadFontFromBytes(fontBytes, familyName)] *)
Definition loadFontFromBytes (P : Platform) (fontBytes : list Byte.byte)
    (familyName : jstring) : M unit :=
  url ← createObjectURL;
  await (if loadFontBytes P fontBytes familyName then Some tt else None)
        (js "font load failed");;
  fonts_add familyName;;
  set_customFontFamily (Some familyName);;
  revokeObjectUrl (Some url).

(** [clearCustomFont()] *)
Definition clearCustomFont : M unit := set_customFontFamily None.

(** [loadSeparatorImage(url)] *)
Definition loadSeparatorImage (P : Platform) (url : jstring) : M unit :=
  img ← await (mkImage (SrcLocation url) <$> fetchImage P url)
               (js "failed to load separator image");
  set_separatorImg (Some img).

(** [disposeBackground()] *)
Definition disposeBackground : M unit :=
  s ← get_state;
  revokeObjectUrl (bgObjectUrl s);;
  set_bgObjectUrl None;;
  set_bgImg None.

(** The three loaders that decode something, as one family of calls. *)
Inductive LoaderCall : Type :=
| CallSetBackground (canvasId : jstring) (bytes : list Byte.byte)
| CallLoadFont (fontBytes : list Byte.byte) (familyName : jstring)
| CallLoadSeparator (url : jstring).

Definition run_loader (P : Platform) (c : LoaderCall) : M unit :=
  match c with
  | CallSetBackground canvasId bytes =>
      setBackgroundImageFromBytes P canvasId bytes
  | CallLoadFont fontBytes familyName =>
      loadFontFromBytes P fontBytes familyName
  | CallLoadSeparator url => loadSeparatorImage P url
  end.

End Loader.

(** ** The renderer *)

(** The fields of [options] that [render] reads.  The two texts are strings
    or nullish ([None]); every other field is any value. *)
Record Options : Type := {
  characterName : option jstring;
  bodyText : option jstring;
  nameFontSize : jsval;
  bodyFontSize : jsval;
  showName : jsval;
  showLine : jsval;
  withShadow : jsval;
  shadowOffsetPx : jsval;
  useCustomFont : jsval;
  nameX01 : jsval;
  nameY01 : jsval;
  bodyX01 : jsval;
  bodyY01 : jsval;
}.

(** What [render] asks of the drawing context, in order. *)
Inductive DrawOp : Type :=
| ClearRect (x y w h : num)
| DrawImage (img : Image) (x y w h : num)
| SetFont (weight : N) (sizePx : num) (family : jstring)
| SetShadowColor (c : jstring)
| SetShadowBlur (n : num)
| SetShadowOffsetX (n : num)
| SetShadowOffsetY (n : num)
| SetTextAlign (a : jstring)
| SetTextBaseline (b : jstring)
| SetFillStyle (c : jstring)
| SetGlobalAlpha (n : num)
| FillText (text : jstring) (x y : num)
| Save
| Restore.

Module Render.
Import Val.

(** Truthiness of a state field holding a string or [null]. *)
Definition truthy_str (s : option jstring) : bool :=
  match s with
  | Some (_ :: _) => true
  | _ => false
  end.

(** [const family = ...] *)
Definition family (s : RenderState) (o : Options) : jstring :=
  if truthy (useCustomFont o) && truthy_str (customFontFamily s)
  then default [] (customFontFamily s)
  else if truthy_str (fontFamily s) then default [] (fontFamily s)
       else js "sans-serif".

(** [const shadowOffset = Math.max(0, options.shadowOffsetPx ?? 2)] *)
Definition shadowOffset (P : Platform) (o : Options) : num :=
  Num.max (Fin 0) (toNumber P (nullish (shadowOffsetPx o) (VNum (Fin 2)))).

(** [applyShadow()] *)
Definition applyShadow (P : Platform) (o : Options) : list DrawOp :=
  if negb (truthy (withShadow o)) then
    [SetShadowColor (js "transparent"); SetShadowBlur (Fin 0);
     SetShadowOffsetX (Fin 0); SetShadowOffsetY (Fin 0)]
  else
    [SetShadowColor (js "rgba(0,0,0,0.75)"); SetShadowBlur (Fin 0);
     SetShadowOffsetX (shadowOffset P o); SetShadowOffsetY (shadowOffset P o)].

(** [Math.round(lerp(0, extent, t))] *)
Definition pixel (extent : N) (t : num) : num :=
  Num.round (lerp (Fin 0) (Num.of_N extent) t).

Definition nameSize (P : Platform) (o : Options) : num :=
  Num.max (Fin 10) (toNumber P (nullish (nameFontSize o) (VNum (Fin 56)))).

Definition name_x01 (P : Platform) (o : Options) : num :=
  clamp01 P (nullish (nameX01 o) (VNum (Fin (1 # 5)))).

Definition name_y01 (P : Platform) (o : Options) : num :=
  clamp01 P (nullish (nameY01 o) (VNum (Fin (4 # 5)))).

(** The block [if (showName) { ... }] *)
Definition name_ops (P : Platform) (s : RenderState) (cw ch : N)
    (o : Options) : list DrawOp :=
  if truthy (showName o) then
    [SetFont 700 (nameSize P o) (family s o)]
    ++ applyShadow P o
    ++ [FillText (default [] (characterName o))
          (pixel cw (name_x01 P o)) (pixel ch (name_y01 P o))]
  else [].

(** [clamp01(options.nameX01 - 0.25 ?? 0.20)]: the subtraction binds tighter
    than [??]. *)
Definition barX01 (P : Platform) (o : Options) : num :=
  clamp01 P (nullish (minus P (nameX01 o) (VNum (Fin (1 # 4))))
                     (VNum (Fin (1 # 5)))).

(** [clamp01(options.nameY01 + 0.025 ?? 0.80)] *)
Definition barY01 (P : Platform) (o : Options) : num :=
  clamp01 P (nullish (plus P (nameY01 o) (VNum (Fin (1 # 40))))
                     (VNum (Fin (4 # 5)))).

(** The block [if (options.showLine && _state.separatorImg) { ... }] *)
Definition line_ops (P : Platform) (s : RenderState) (cw ch : N)
    (o : Options) : list DrawOp :=
  match separatorImg s with
  | Some img =>
      if truthy (showLine o) then
        [Save; SetShadowColor (js "transparent"); SetGlobalAlpha (Fin 1);
         DrawImage img (pixel cw (barX01 P o)) (pixel ch (barY01 P o))
           (Fin 552) (Fin 8);
         Restore]
      else []
  | None => []
  end.

Definition bodySize (P : Platform) (o : Options) : num :=
  Num.max (Fin 10) (toNumber P (nullish (bodyFontSize o) (VNum (Fin 50)))).

Definition body_x01 (P : Platform) (o : Options) : num :=
  clamp01 P (nullish (bodyX01 o) (VNum (Fin (1 # 5)))).

Definition body_y01 (P : Platform) (o : Options) : num :=
  clamp01 P (nullish (bodyY01 o) (VNum (Fin (4 # 5)))).

(** [const lines = wrapLines(ctx, bodyText, maxTextWidth)], the context
    having the body font. *)
Definition body_lines (P : Platform) (s : RenderState) (cw : N)
    (o : Options) : list jstring :=
  Wrap.wrapLines (textWidth P (bodySize P o) (family s o))
    (inject_Z (Z.of_N cw)) (Some (default [] (bodyText o))).

(** The loop [for (let i = 0; i < drawLines.length; i++)], from index [i]
    on. *)
Fixpoint fill_lines (x y lineHeight : num) (i : nat) (lines : list jstring)
  : list DrawOp :=
  match lines with
  | [] => []
  | l :: rest =>
      FillText l x (Num.add y (Num.mul (Num.of_nat i) lineHeight))
      :: fill_lines x y lineHeight (S i) rest
  end.

(** The body block. *)
Definition body_ops (P : Platform) (s : RenderState) (cw ch : N)
    (o : Options) : list DrawOp :=
  [SetFont 700 (bodySize P o) (family s o)]
  ++ applyShadow P o
  ++ fill_lines (pixel cw (body_x01 P o)) (pixel ch (body_y01 P o))
       (Num.round (Num.mul (bodySize P o) (Fin (23 # 20)))) 0
       (body_lines P s cw o).

(** The values a list of operations assigns to [shadowOffsetX] and
    [shadowOffsetY], in order. *)
Definition shadow_offsets (ops : list DrawOp) : list num :=
  flat_map (fun op => match op with
                      | SetShadowOffsetX v | SetShadowOffsetY v => [v]
                      | _ => []
                      end) ops.

(** [render(canvasId, options)] *)
Definition render (P : Platform) (w : World) (canvasId : jstring)
    (o : Options) : Result (list DrawOp) :=
  match elements w !! canvasId with
  | None => Throw (js "canvas not found")
  | Some canvas =>
      if negb (has2d canvas) then Throw (js "2d context not available")
      else
        let cw := cv_width canvas in
        let ch := cv_height canvas in
        match bgImg (state w) with
        | None => Ok [ClearRect (Fin 0) (Fin 0) (Num.of_N cw) (Num.of_N ch)]
        | Some img =>
            Ok ([ClearRect (Fin 0) (Fin 0) (Num.of_N cw) (Num.of_N ch);
                 DrawImage img (Fin 0) (Fin 0) (Num.of_N cw) (Num.of_N ch);
                 SetTextAlign (js "center");
                 SetTextBaseline (js "alphabetic");
                 SetFillStyle (js "white")]
                ++ name_ops P (state w) cw ch o
                ++ line_ops P (state w) cw ch o
                ++ body_ops P (state w) cw ch o)
        end
  end.

End Render.

(** ** A concrete browser, for running the module *)

Module Example.

(** Every character is ten pixels wide. *)
Definition width10 (s : jstring) : Q := inject_Z (10 * Z.of_nat (length s)).

(** Strings that are not numbers; any bytes but the empty sequence decode to
    an 800 by 600 image; the separator asset is 552 by 8; fonts load unless
    their bytes are empty. *)
Definition P0 : Platform :=
  {| stringToNumber := fun _ => NaN;
     numberToString := fun _ => js "0";
     textWidth := fun _ _ s => width10 s;
     decodeImage := fun b =>
       match b with
       | [] => None
       | _ => Some {| d_naturalWidth := 800; d_naturalHeight := 600;
                      d_width := 800; d_height := 600 |}
       end;
     fetchImage := fun u =>
       match u with
       | [] => None
       | _ => Some {| d_naturalWidth := 552; d_naturalHeight := 8;
                      d_width := 552; d_height := 8 |}
       end;
     loadFontBytes := fun b _ => match b with [] => false | _ => true end;
     loadFontUrl := fun _ _ _ => true |}.

Definition canvasId : jstring := js "card".

(** A page with one canvas of the default size. *)
Definition w_empty : World :=
  initial_world
    {[ canvasId := {| has2d := true; cv_width := 300; cv_height := 150 |} ]}.

(** ... after a background was set, *)
Definition w_bgA : World :=
  snd (Loader.setBackgroundImageFromBytes P0 canvasId [Byte.x01] w_empty).

(** ... and after the separator was loaded too. *)
Definition w_ready : World :=
  snd (Loader.loadSeparatorImage P0 (js "img/line.png") w_bgA).

Definition separator : Image :=
  mkImage (SrcLocation (js "img/line.png"))
    {| d_naturalWidth := 552; d_naturalHeight := 8;
       d_width := 552; d_height := 8 |}.

(** Options that leave every anchor and size to its default. *)
Definition o_default : Options :=
  {| characterName := Some (js "Uma"); bodyText := Some (js "hello world");
     nameFontSize := VUndefined; bodyFontSize := VUndefined;
     showName := VBool true; showLine := VBool true;
     withShadow := VBool true; shadowOffsetPx := VNum (Fin (-3));
     useCustomFont := VUndefined;
     nameX01 := VUndefined; nameY01 := VUndefined;
     bodyX01 := VUndefined; bodyY01 := VUndefined |}.

(** A text with a blank paragraph between two words. *)
Definition blank_between : jstring := js "a" ++ [10%N; 10%N] ++ js "b".

End Example.

(** ** Further notions: line endings, draw logs, sessions, the exporter *)

Module Text.

(** Writing every line feed as carriage return and line feed. *)
Fixpoint to_crlf (s : jstring) : jstring :=
  match s with
  | [] => []
  | c :: s' =>
      if (c =? 10)%N then 13%N :: 10%N :: to_crlf s' else c :: to_crlf s'
  end.

(** A string all of whitespace, or without any. *)
Definition homogeneous (s : jstring) : Prop :=
  Forall (fun c => Str.is_ws c = true) s
  \/ Forall (fun c => Str.is_ws c = false) s.

End Text.

Module Lines.

(** Every two lines that follow one another are related by [R]. *)
Definition neighbours {A : Type} (R : A -> A -> Prop) (ls : list A) : Prop :=
  forall a x y b, ls = a ++ x :: y :: b -> R x y.

(** The line [x] could not have taken the first character of the line [y]:
    with it, it no longer fits. *)
Definition full_before (measureText : jstring -> Q) (maxWidth : Q)
    (x y : jstring) : Prop :=
  exists ch rest,
    y = ch ++ rest /\ Str.single_char ch
    /\ Wrap.fits measureText maxWidth (x ++ ch) = false.

End Lines.

Module Trace.




End Trace.

Module Urls.

(** The object URLs created and not released, oldest first. *)
Definition step (acc : list Url) (e : Event) : list Url :=
  match e with
  | EvCreate u => acc ++ [u]
  | EvRevoke u => List.filter (fun v => negb (Nat.eqb u v)) acc
  | EvSetBgObjectUrl _ => acc
  end.

Definition unreleased (log : list Event) : list Url := fold_left step log [].

End Urls.

(** *** Sessions: what the host may call, in any order *)

Module Session.
Import Eff Loader.

Inductive Op : Type :=
| OpLoadBundledFont (family url : jstring) (weight : jsval)
| OpSetBackground (canvasId : jstring) (bytes : list Byte.byte)
| OpLoadFont (fontBytes : list Byte.byte) (familyName : jstring)
| OpClearCustomFont
| OpLoadSeparator (url : jstring)
| OpDisposeBackground.

Definition run_op (P : Platform) (op : Op) : M unit :=
  match op with
  | OpLoadBundledFont family url weight => loadBundledFont P family url weight
  | OpSetBackground canvasId bytes =>
      setBackgroundImageFromBytes P canvasId bytes
  | OpLoadFont fontBytes familyName => loadFontFromBytes P fontBytes familyName
  | OpClearCustomFont => clearCustomFont
  | OpLoadSeparator url => loadSeparatorImage P url
  | OpDisposeBackground => disposeBackground
  end.

(** The calls run one after the other, each to its end; a call that throws
    leaves the world as it was when it threw, and the host goes on. *)
Definition run_ops (P : Platform) (ops : list Op) (w : World) : World :=
  fold_left (fun w op => snd (run_op P op w)) ops w.

(** The same, stopping at the first call that throws. *)
Fixpoint run_checked (P : Platform) (ops : list Op) (w : World)
  : Result World :=
  match ops with
  | [] => Ok w
  | op :: rest =>
      match run_op P op w with
      | (Ok _, w') => run_checked P rest w'
      | (Throw msg, _) => Throw msg
      end
  end.

(** The handle in [_state], as a list. *)
Definition held (s : RenderState) : list Url :=
  match bgObjectUrl s with
  | Some u => [u]
  | None => []
  end.

(** What holds between calls. *)
Record Inv (w : World) : Prop := {
  (** the handle in [_state] is the one background handle not released *)
  inv_live : Log.bg_live (events w) = held (state w);
  (** it is among the URLs the browser still knows *)
  inv_known : forall u, bgObjectUrl (state w) = Some u ->
                        In u (Urls.unreleased (events w));
  (** the background image and its handle come and go together, the image
      being the one read from that handle *)
  inv_paired : match bgImg (state w), bgObjectUrl (state w) with
               | Some img, Some u => img_src img = SrcBlob u
               | None, None => True
               | _, _ => False
               end;
  (** every URL handed out so far is older than the next one *)
  inv_fresh : Forall (fun u => u < nextUrl w) (Urls.unreleased (events w));
}.

(** A URL the browser still knows, that [_state] does not hold, and that is
    older than the next one: no call of the module can release it. *)
Definition Leaked (u : Url) (w : World) : Prop :=
  In u (Urls.unreleased (events w))
  /\ bgObjectUrl (state w) <> Some u
  /\ u < nextUrl w.

End Session.

(** *** The exporter *)

Module Exporter.
Import Eff Dom Loader.

(** What the click on the temporary link asks of the browser. *)
Record Download : Type := {
  dl_href : Url;
  dl_name : jstring;
}.

(** [filename || "image.png"] *)
Definition download_name (filename : option jstring) : jstring :=
  if Render.truthy_str filename then default [] filename
  else js "image.png".

(** [downloadPng(canvasId, filename)] together with the callback it hands to
    [canvas.toBlob]; [blob] tells whether the browser calls back with a blob
    ([true]) or with [null].  The result is the download that was triggered,
    if any. *)
Definition downloadPng (blob : bool) (canvasId : jstring)
    (filename : option jstring) : M (option Download) :=
  el ← getElementById canvasId;
  match el with
  | None => throw (js "canvas not found")
  | Some canvas =>
      if negb blob then mret None
      else
        url ← createObjectURL;
        mret (Some {| dl_href := url; dl_name := download_name filename |})
  end.

(** The timer set by the callback: [() => revokeObjectUrl(url)]. *)
Definition downloadPng_timer (d : Download) : M unit :=
  revokeObjectUrl (Some (dl_href d)).

End Exporter.

(** *** Sessions on the example page *)

Module Example2.
Import Example.

(** A session in which every call succeeds. *)
Definition good_session : list Session.Op :=
  [Session.OpLoadBundledFont (js "Uma") (js "fonts/uma.ttf")
     (VNum (Fin 400));
   Session.OpSetBackground canvasId [Byte.x01];
   Session.OpLoadFont [Byte.x07] (js "Mine");
   Session.OpLoadSeparator (js "img/line.png");
   Session.OpSetBackground canvasId [Byte.x02];
   Session.OpClearCustomFont].

(** The example page once that session ran. *)
Definition w_session : World := Session.run_ops P0 good_session w_empty.

(** The example options without shadow, name and separator. *)
Definition o_plain : Options :=
  {| characterName := None; bodyText := Some (js "hello world");
     nameFontSize := VUndefined; bodyFontSize := VNum (Fin 40);
     showName := VBool false; showLine := VBool false;
     withShadow := VBool false; shadowOffsetPx := VUndefined;
     useCustomFont := VBool true;
     nameX01 := VUndefined; nameY01 := VUndefined;
     bodyX01 := VNum (Fin (1 # 2)); bodyY01 := VNum (Fin (1 # 4)) |}.

(** The canvas of the example page once a background is set. *)
Definition canvas_bg : Canvas :=
  {| has2d := true; cv_width := 800; cv_height := 600 |}.

Definition dims_bg : ImageDims :=
  {| d_naturalWidth := 800; d_naturalHeight := 600;
     d_width := 800; d_height := 600 |}.

(** The first background of the example page. *)
Definition bgA : Image := mkImage (SrcBlob 0) dims_bg.

End Example2.
(** * Properties of the line wrapper *)

Module StrFacts.
Import Str.

Lemma nonws_app (a b : jstring) : nonws (a ++ b) = nonws a ++ nonws b.
Proof. apply List.filter_app. Qed.

Lemma nonws_cons (c : N) (s : jstring) :
  nonws (c :: s) = if is_ws c then nonws s else c :: nonws s.
Proof. unfold nonws. simpl. now destruct (is_ws c). Qed.

Lemma nonws_rev (s : jstring) : nonws (rev s) = rev (nonws s).
Proof.
  induction s as [|c s IH]; [reflexivity|].
  simpl rev. rewrite nonws_app, IH, !nonws_cons.
  destruct (is_ws c); simpl; [now rewrite app_nil_r | reflexivity].
Qed.

Lemma nonws_trimStart (s : jstring) : nonws (trimStart s) = nonws s.
Proof.
  induction s as [|c s IH]; [reflexivity|].
  simpl trimStart. destruct (is_ws c) eqn:E; [|reflexivity].
  now rewrite IH, nonws_cons, E.
Qed.

Lemma nonws_trimEnd (s : jstring) : nonws (trimEnd s) = nonws s.
Proof.
  unfold trimEnd.
  now rewrite nonws_rev, nonws_trimStart, nonws_rev, rev_involutive.
Qed.

Lemma nonws_replace_crlf (s : jstring) : nonws (replace_crlf s) = nonws s.
Proof.
  assert (H : forall n (t : jstring), (length t <= n)%nat ->
              nonws (replace_crlf t) = nonws t).
  { induction n as [|n IH]; intros [|c [|d t]] Hlen; simpl in Hlen;
      try reflexivity; try lia.
    change (replace_crlf (c :: d :: t))
      with (if ((c =? 13) && (d =? 10))%N then 10%N :: replace_crlf t
            else c :: replace_crlf (d :: t)).
    destruct ((c =? 13) && (d =? 10))%N eqn:E.
    - apply andb_true_iff in E as [Ec Ed].
      apply N.eqb_eq in Ec, Ed. subst c d.
      change (nonws (10%N :: replace_crlf t)) with (nonws (replace_crlf t)).
      change (nonws (13%N :: 10%N :: t)) with (nonws t).
      apply IH. lia.
    - rewrite (nonws_cons c (replace_crlf (d :: t))), (nonws_cons c (d :: t)).
      rewrite (IH (d :: t)); [reflexivity | simpl; lia]. }
  apply (H (length s)). lia.
Qed.

Lemma split_lf_not_nil (s : jstring) : split_lf s <> [].
Proof.
  induction s as [|c s IH]; simpl; [discriminate|].
  destruct (c =? 10)%N; [discriminate|].
  destruct (split_lf s); [congruence | discriminate].
Qed.

Lemma nonws_split_lf (s : jstring) : nonws (concat (split_lf s)) = nonws s.
Proof.
  induction s as [|c s IH]; [reflexivity|].
  simpl split_lf. destruct (c =? 10)%N eqn:E.
  - apply N.eqb_eq in E. subst c. simpl concat. now rewrite IH.
  - pose proof (split_lf_not_nil s) as Hne.
    destruct (split_lf s) as [|p ps]; [congruence|].
    simpl concat in *.
    change ((c :: p) ++ concat ps) with (c :: (p ++ concat ps)).
    now rewrite !nonws_cons, IH.
Qed.

Lemma concat_split_ws_from (b : bool) (cur s : jstring) :
  concat (split_ws_from b cur s) = rev cur ++ s.
Proof.
  revert b cur. induction s as [|c s IH]; intros b cur; simpl.
  - destruct b; simpl; now rewrite ?app_nil_r.
  - destruct (is_ws c), b; simpl; rewrite IH; simpl;
      now rewrite <- ?app_assoc.
Qed.

Lemma concat_split_ws (s : jstring) : concat (split_ws s) = s.
Proof. apply concat_split_ws_from. Qed.

Lemma codePoints_cons2 (c d : N) (s : jstring) :
  codePoints (c :: d :: s)
  = if is_high c && is_low d then [c; d] :: codePoints s
    else [c] :: codePoints (d :: s).
Proof. reflexivity. Qed.

Lemma codePoints_bounded (n : nat) :
  forall s : jstring, (length s <= n)%nat ->
    concat (codePoints s) = s /\ Forall single_char (codePoints s).
Proof.
  induction n as [|n IH]; intros [|c [|d s]] Hlen; simpl in Hlen; try lia;
    try (split; [reflexivity | constructor; fail]);
    try (split; [reflexivity | constructor; [reflexivity | constructor]]).
  rewrite codePoints_cons2.
  destruct (is_high c && is_low d) eqn:E.
  - destruct (IH s) as [Hc Hs]; [lia|]. split.
    + simpl. now rewrite Hc.
    + constructor; [|exact Hs].
      unfold single_char. rewrite codePoints_cons2, E. reflexivity.
  - destruct (IH (d :: s)) as [Hc Hs]; [simpl; lia|]. split.
    + change (c :: concat (codePoints (d :: s)) = c :: d :: s).
      now rewrite Hc.
    + constructor; [reflexivity | exact Hs].
Qed.

Lemma concat_codePoints (s : jstring) : concat (codePoints s) = s.
Proof. apply (codePoints_bounded (length s)). lia. Qed.

Lemma codePoints_single (s : jstring) : Forall single_char (codePoints s).
Proof. apply (codePoints_bounded (length s)). lia. Qed.

Lemma single_char_space : single_char (js " ").
Proof. reflexivity. Qed.

Lemma single_char_not_nil (s : jstring) : single_char s -> s <> [].
Proof. intros H ->. discriminate H. Qed.

Lemma is_empty_true (s : jstring) : is_empty s = true <-> s = [].
Proof. destruct s; simpl; split; congruence. Qed.

Lemma is_empty_false (s : jstring) : is_empty s = false <-> s <> [].
Proof. destruct s; simpl; split; congruence. Qed.

End StrFacts.

Module WrapFacts.
Import Str StrFacts Wrap.

(** A loop that pushes onto an array only ever appends to it. *)
Lemma fold_left_push {A B : Type} (step : list B -> A -> list B) :
  (forall acc x, step acc x = acc ++ step [] x) ->
  forall xs acc, fold_left step xs acc = acc ++ flat_map (step []) xs.
Proof.
  intros Hstep xs. induction xs as [|x xs IH]; intros acc; simpl.
  - now rewrite app_nil_r.
  - now rewrite IH, Hstep, <- app_assoc.
Qed.

Section WithMeasure.

Variable measureText : jstring -> Q.
Variable maxWidth : Q.

Local Abbreviation fits := (fits measureText maxWidth).
Local Abbreviation word_step := (word_step measureText maxWidth).
Local Abbreviation char_step := (char_step measureText maxWidth).
Local Abbreviation paragraph_step := (paragraph_step measureText maxWidth).
Local Abbreviation line_step := (line_step measureText maxWidth).
Local Abbreviation wrapParagraphs := (wrapParagraphs measureText maxWidth).
Local Abbreviation wrapLines := (wrapLines measureText maxWidth).
Local Abbreviation greedy_step := (greedy_step measureText maxWidth).
Local Abbreviation fits_or_single := (fits_or_single measureText maxWidth).

Lemma word_step_greedy : word_step = greedy_step trimStart trimEnd.
Proof. reflexivity. Qed.

Lemma char_step_greedy : char_step = greedy_step (fun x => x) (fun x => x).
Proof. reflexivity. Qed.

Section Greedy.
Variables start commit : jstring -> jstring.
Local Abbreviation loop := (fold_left (greedy_step start commit)).

Lemma greedy_cons (x : jstring) (xs : list jstring) cur out :
  loop (x :: xs) (cur, out)
  = if fits (cur ++ x) || is_empty cur then loop xs (cur ++ x, out)
    else loop xs (start x, out ++ [commit cur]).
Proof. simpl. now destruct (fits (cur ++ x) || is_empty cur). Qed.

Lemma greedy_frame (xs : list jstring) :
  forall cur extra out,
    loop xs (cur, extra ++ out)
    = (fst (loop xs (cur, out)), extra ++ snd (loop xs (cur, out))).
Proof.
  induction xs as [|x xs IH]; intros cur extra out; [reflexivity|].
  simpl. destruct (fits (cur ++ x) || is_empty cur).
  - apply IH.
  - rewrite <- app_assoc. apply IH.
Qed.

(** What the loop keeps, seen through a view [phi] of strings that the
    two trimming functions do not change. *)
Lemma greedy_content (phi : jstring -> jstring) :
  (forall a b, phi (a ++ b) = phi a ++ phi b) ->
  (forall x, phi (start x) = phi x) ->
  (forall x, phi (commit x) = phi x) ->
  forall xs cur out,
    phi (concat (snd (loop xs (cur, out))) ++ fst (loop xs (cur, out)))
    = phi (concat out ++ cur ++ concat xs).
Proof.
  intros Happ Hstart Hcommit xs.
  induction xs as [|x xs IH]; intros cur out.
  - simpl. now rewrite app_nil_r.
  - simpl. destruct (fits (cur ++ x) || is_empty cur).
    + rewrite IH. now rewrite <- app_assoc.
    + rewrite IH. rewrite concat_app. simpl concat.
      rewrite app_nil_r, <- !app_assoc.
      rewrite !Happ, Hstart, Hcommit. reflexivity.
Qed.

(** Either something was committed, or everything read is still in the
    current line. *)
Lemma greedy_progress (xs : list jstring) :
  forall cur out,
    (length out < length (snd (loop xs (cur, out))))%nat
    \/ loop xs (cur, out) = (cur ++ concat xs, out).
Proof.
  induction xs as [|x xs IH]; intros cur out.
  - right. simpl. now rewrite app_nil_r.
  - rewrite greedy_cons. destruct (fits (cur ++ x) || is_empty cur).
    + destruct (IH (cur ++ x) out) as [H|H]; [now left|].
      right. rewrite <- app_assoc in H. exact H.
    + left. destruct (IH (start x) (out ++ [commit cur])) as [H|H].
      * rewrite length_app in H. simpl in H. lia.
      * apply (f_equal snd) in H. simpl in H. rewrite H.
        rewrite length_app. simpl. lia.
Qed.
End Greedy.

(** *** The three outer loops, one element at a time *)

Lemma paragraph_step_push (lines : list jstring) (p : jstring) :
  paragraph_step lines p = lines ++ paragraph_step [] p.
Proof.
  unfold Wrap.paragraph_step. destruct (is_empty p); [reflexivity|].
  rewrite word_step_greedy.
  pose proof (greedy_frame trimStart trimEnd (split_ws p) [] lines [])
    as H.
  rewrite app_nil_r in H. rewrite H.
  destruct (fold_left (greedy_step trimStart trimEnd) (split_ws p) ([], []))
    as [line out]. simpl.
  destruct (negb (is_empty line)); [now rewrite app_assoc | reflexivity].
Qed.

Lemma line_step_push (fixed : list jstring) (l : jstring) :
  line_step fixed l = fixed ++ line_step [] l.
Proof.
  unfold Wrap.line_step. destruct (fits l); [reflexivity|].
  rewrite char_step_greedy.
  pose proof (greedy_frame (fun x => x) (fun x => x)
                (codePoints l) [] fixed []) as H.
  rewrite app_nil_r in H. rewrite H.
  destruct (fold_left (greedy_step (fun x => x) (fun x => x))
              (codePoints l) ([], [])) as [buf out]. simpl.
  destruct (negb (is_empty buf)); [now rewrite app_assoc | reflexivity].
Qed.

Lemma wrapParagraphs_flat (raw : list jstring) :
  wrapParagraphs raw
  = map blank_to_space
      (flat_map (line_step []) (flat_map (paragraph_step []) raw)).
Proof.
  unfold Wrap.wrapParagraphs.
  rewrite (fold_left_push paragraph_step paragraph_step_push).
  rewrite (fold_left_push line_step line_step_push).
  reflexivity.
Qed.

Lemma wrapParagraphs_app (a b : list jstring) :
  wrapParagraphs (a ++ b) = wrapParagraphs a ++ wrapParagraphs b.
Proof.
  rewrite !wrapParagraphs_flat.
  now rewrite !flat_map_app, map_app.
Qed.

Lemma wrapParagraphs_concat (raw : list jstring) :
  wrapParagraphs raw = concat (map (fun p => wrapParagraphs [p]) raw).
Proof.
  induction raw as [|p raw IH]; [reflexivity|].
  change (p :: raw) with ([p] ++ raw).
  rewrite wrapParagraphs_app, IH. reflexivity.
Qed.

(** *** Widths of the lines of the fallback pass *)

Lemma char_loop_width (xs : list jstring) :
  forall buf fixed,
    Forall single_char xs ->
    Forall fits_or_single fixed ->
    buf = [] \/ fits_or_single buf ->
    Forall fits_or_single (snd (fold_left char_step xs (buf, fixed)))
    /\ (fst (fold_left char_step xs (buf, fixed)) = []
        \/ fits_or_single (fst (fold_left char_step xs (buf, fixed)))).
Proof.
  rewrite char_step_greedy.
  induction xs as [|x xs IH]; intros buf fixed Hxs Hfixed Hbuf.
  - simpl. auto.
  - inversion Hxs as [|? ? Hx Hxs']; subst.
    rewrite greedy_cons.
    destruct (fits (buf ++ x) || is_empty buf) eqn:E.
    + apply IH; [assumption | assumption |].
      right. apply orb_true_iff in E as [E|E]; [now left|].
      apply is_empty_true in E. subst buf. now right.
    + apply orb_false_iff in E as [_ E]. apply is_empty_false in E.
      apply IH; [assumption | | right; now right].
      apply Forall_app. split; [assumption|].
      constructor; [|constructor]. destruct Hbuf; [contradiction | assumption].
Qed.

Lemma line_step_width (l : jstring) : Forall fits_or_single (line_step [] l).
Proof.
  unfold Wrap.line_step. destruct (fits l) eqn:E.
  - constructor; [now left | constructor].
  - destruct (char_loop_width (codePoints l) [] [])
      as [Hfixed Hbuf]; [apply codePoints_single | constructor | now left |].
    destruct (fold_left char_step (codePoints l) ([], [])) as [buf fixed].
    simpl in *. destruct (is_empty buf) eqn:Eb; simpl; [assumption|].
    apply is_empty_false in Eb. apply Forall_app. split; [assumption|].
    constructor; [|constructor]. destruct Hbuf; [contradiction | assumption].
Qed.

Lemma blank_to_space_width (l : jstring) :
  fits_or_single l -> fits_or_single (blank_to_space l).
Proof.
  unfold blank_to_space. destruct (is_empty l); [|trivial].
  intros _. right. exact single_char_space.
Qed.

Lemma wrapParagraphs_width (raw : list jstring) :
  Forall fits_or_single (wrapParagraphs raw).
Proof.
  rewrite wrapParagraphs_flat.
  induction (flat_map (paragraph_step []) raw) as [|l ls IH];
    [constructor|].
  simpl. rewrite map_app. apply Forall_app. split; [|exact IH].
  pose proof (line_step_width l) as Hl.
  induction Hl as [|x xs Hx _ IHxs]; simpl; constructor;
    [now apply blank_to_space_width | exact IHxs].
Qed.

(** *** What the wrapper keeps of the text *)

Lemma paragraph_step_content (p : jstring) :
  nonws (concat (paragraph_step [] p)) = nonws p.
Proof.
  unfold Wrap.paragraph_step. destruct (is_empty p) eqn:Ep.
  - apply is_empty_true in Ep. now subst p.
  - rewrite word_step_greedy.
    pose proof (greedy_content trimStart trimEnd nonws nonws_app
                  nonws_trimStart nonws_trimEnd (split_ws p) [] []) as H.
    simpl in H. rewrite concat_split_ws in H.
    destruct (fold_left (greedy_step trimStart trimEnd) (split_ws p) ([], []))
      as [line out]. simpl in H.
    destruct (is_empty line) eqn:El; simpl.
    + apply is_empty_true in El. subst line. now rewrite app_nil_r in H.
    + rewrite concat_app. simpl. rewrite app_nil_r, nonws_app, nonws_trimEnd.
      now rewrite <- nonws_app.
Qed.

Lemma line_step_content (l : jstring) : concat (line_step [] l) = l.
Proof.
  unfold Wrap.line_step. destruct (fits l).
  - simpl. apply app_nil_r.
  - rewrite char_step_greedy.
    pose proof (greedy_content (fun x => x) (fun x => x) (fun x => x)
                  (fun a b => eq_refl) (fun x => eq_refl) (fun x => eq_refl)
                  (codePoints l) [] []) as H.
    simpl in H. rewrite concat_codePoints in H.
    destruct (fold_left (greedy_step (fun x => x) (fun x => x))
                (codePoints l) ([], [])) as [buf out]. simpl in H.
    destruct (is_empty buf) eqn:Eb; simpl.
    + apply is_empty_true in Eb. subst buf. now rewrite app_nil_r in H.
    + rewrite concat_app. simpl. now rewrite app_nil_r.
Qed.

Lemma concat_flat_map_line_step (ls : list jstring) :
  concat (flat_map (line_step []) ls) = concat ls.
Proof.
  induction ls as [|l ls IH]; [reflexivity|].
  simpl. now rewrite concat_app, IH, line_step_content.
Qed.

Lemma nonws_blank_to_space (ls : list jstring) :
  nonws (concat (map blank_to_space ls)) = nonws (concat ls).
Proof.
  induction ls as [|l ls IH]; [reflexivity|].
  simpl. rewrite !nonws_app, IH. f_equal.
  unfold blank_to_space. destruct (is_empty l) eqn:E; [|reflexivity].
  apply is_empty_true in E. now subst l.
Qed.

Lemma wrapParagraphs_content (raw : list jstring) :
  nonws (concat (wrapParagraphs raw)) = nonws (concat raw).
Proof.
  rewrite wrapParagraphs_flat, nonws_blank_to_space.
  rewrite concat_flat_map_line_step.
  induction raw as [|p raw IH]; [reflexivity|].
  simpl. now rewrite concat_app, !nonws_app, IH, paragraph_step_content.
Qed.

Lemma nonws_paragraphs (text : option jstring) :
  nonws (concat (paragraphs text)) = nonws (default [] text).
Proof.
  unfold paragraphs. now rewrite nonws_split_lf, nonws_replace_crlf.
Qed.

(** *** No paragraph disappears *)

Lemma paragraph_step_not_nil (p : jstring) : paragraph_step [] p <> [].
Proof.
  unfold Wrap.paragraph_step. destruct (is_empty p) eqn:Ep; [discriminate|].
  apply is_empty_false in Ep. rewrite word_step_greedy.
  destruct (greedy_progress trimStart trimEnd (split_ws p) [] []) as [H|H].
  - destruct (fold_left (greedy_step trimStart trimEnd) (split_ws p) ([], []))
      as [line out]. simpl in H.
    destruct (negb (is_empty line)); destruct out; simpl in *;
      try discriminate; lia.
  - rewrite H, concat_split_ws.
    destruct p; [congruence | simpl; discriminate].
Qed.

Lemma line_step_not_nil (l : jstring) :
  fits [] = true -> line_step [] l <> [].
Proof.
  intros Hnil. unfold Wrap.line_step. destruct (fits l) eqn:E; [discriminate|].
  assert (Hl : l <> []) by (intros ->; congruence).
  rewrite char_step_greedy.
  destruct (greedy_progress (fun x => x) (fun x => x) (codePoints l) [] [])
    as [H|H].
  - destruct (fold_left (greedy_step (fun x => x) (fun x => x))
                (codePoints l) ([], [])) as [buf out]. simpl in H.
    destruct (negb (is_empty buf)); destruct out; simpl in *;
      try discriminate; lia.
  - rewrite H, concat_codePoints.
    destruct l; [congruence | simpl; discriminate].
Qed.

Lemma wrapParagraphs_one_not_nil (p : jstring) :
  wrapParagraphs [p] <> [] \/ (maxWidth < measureText [])%Q.
Proof.
  destruct (fits []) eqn:E.
  - left. rewrite wrapParagraphs_flat. simpl. rewrite app_nil_r.
    pose proof (paragraph_step_not_nil p) as Hp.
    destruct (paragraph_step [] p) as [|l ls]; [congruence|].
    simpl. pose proof (line_step_not_nil l E) as Hl.
    destruct (line_step [] l); [congruence | discriminate].
  - right. unfold Wrap.fits in E. apply Qnot_le_lt. intros H.
    apply Qle_bool_iff in H. congruence.
Qed.

(** *** Blank paragraphs *)

Lemma wrapParagraphs_blank : wrapParagraphs [[]] = [js " "].
Proof.
  unfold Wrap.wrapParagraphs, Wrap.paragraph_step, Wrap.line_step.
  cbn [fold_left is_empty app]. change (js " ") with [32%N].
  cbn [codePoints].
  destruct (fits [32%N]) eqn:E; [reflexivity|].
  unfold Wrap.char_step. cbn [fold_left is_empty app].
  rewrite E. reflexivity.
Qed.

Lemma blank_to_space_not_nil (l : jstring) : blank_to_space l <> [].
Proof.
  unfold blank_to_space. destruct l; simpl; discriminate.
Qed.

End WithMeasure.

End WrapFacts.

(** *** The wrapper at work, every character ten pixels wide *)

Module WrapExamples.
Import Str Wrap Example.

Example split_ws_example :
  split_ws (js " a  b ") = [js ""; js " "; js "a"; js "  "; js "b"; js " "; js ""].
Proof. reflexivity. Qed.

Example split_lf_example :
  split_lf (replace_crlf (js "a" ++ [13; 10]%N ++ [10%N] ++ js "b"))
  = [js "a"; js ""; js "b"].
Proof. reflexivity. Qed.

Example codePoints_example :
  codePoints [55357; 56832; 97; 56832]%N
  = [[55357; 56832]; [97]; [56832]]%N.
Proof. reflexivity. Qed.

Example wrapLines_words :
  wrapLines width10 50 (Some (js "hello world foo   bar baz"))
  = [js "hello"; js "world"; js "foo"; js "bar"; js "baz"].
Proof. reflexivity. Qed.

Example wrapLines_long_token :
  wrapLines width10 30 (Some (js "abcdefgh ij"))
  = [js "abc"; js "def"; js "gh"; js "ij"].
Proof. reflexivity. Qed.

Example wrapLines_leading_spaces :
  wrapLines width10 20 (Some (js "  ab")) = [js " "; js "ab"].
Proof. reflexivity. Qed.

Example wrapLines_nullish : wrapLines width10 20 None = [js " "].
Proof. reflexivity. Qed.

(** A single character wider than the budget stands alone. *)
Example wrapLines_too_narrow :
  wrapLines width10 5 (Some (js "ab c")) = [js "a"; js "b"; js "c"].
Proof. reflexivity. Qed.

(** Below a width of zero not even the empty string fits, and a paragraph of
    spaces leaves no line. *)
Example wrapLines_negative_width :
  wrapLines width10 (-1) (Some (js "  ")) = [].
Proof. reflexivity. Qed.

End WrapExamples.

(** * Properties of the anchor arithmetic *)

Module NumFacts.
Import Val.

Lemma leb_false_lt (x y : Q) : Qle_bool x y = false -> (y < x)%Q.
Proof.
  intros H. apply Qnot_le_lt. intros Hle.
  apply Qle_bool_iff in Hle. congruence.
Qed.

Lemma leb_true_le (x y : Q) : Qle_bool x y = true -> (x <= y)%Q.
Proof. apply Qle_bool_iff. Qed.

(** [clamp01] on a finite number, case by case. *)
Lemma clamp01_fin (P : Platform) (q : Q) :
  clamp01 P (VNum (Fin q))
  = if Qle_bool 1 q then Fin 1 else if Qle_bool 0 q then Fin q else Fin 0.
Proof.
  unfold clamp01. simpl. unfold Num.min, Num.leb.
  destruct (Qle_bool 1 q); [reflexivity|].
  unfold Num.max, Num.leb. reflexivity.
Qed.

Lemma clamp01_of_number (P : Platform) (v : jsval) :
  clamp01 P v = clamp01 P (VNum (toNumber P v)).
Proof. reflexivity. Qed.

Lemma clamp01_not_finite (P : Platform) (v : jsval) :
  Num.isFinite (toNumber P v) = false -> clamp01 P v = Fin 0.
Proof. unfold clamp01. intros ->. reflexivity. Qed.

Lemma clamp01_in_unit (P : Platform) (v : jsval) : in_unit (clamp01 P v).
Proof.
  rewrite clamp01_of_number.
  destruct (toNumber P v) as [| | |q];
    try (exists 0%Q; split; [reflexivity | lra]).
  rewrite clamp01_fin.
  destruct (Qle_bool 1 q) eqn:E1; [exists 1%Q; split; [reflexivity | lra]|].
  apply leb_false_lt in E1.
  destruct (Qle_bool 0 q) eqn:E0.
  - apply leb_true_le in E0. exists q. split; [reflexivity | lra].
  - exists 0%Q. split; [reflexivity | lra].
Qed.

Lemma clamp01_below (P : Platform) (q : Q) :
  (q < 0)%Q -> clamp01 P (VNum (Fin q)) = Fin 0.
Proof.
  intros Hq. rewrite clamp01_fin.
  destruct (Qle_bool 1 q) eqn:E1; [apply leb_true_le in E1; lra|].
  destruct (Qle_bool 0 q) eqn:E0; [apply leb_true_le in E0; lra|].
  reflexivity.
Qed.

Lemma clamp01_above (P : Platform) (q : Q) :
  (1 < q)%Q -> clamp01 P (VNum (Fin q)) = Fin 1.
Proof.
  intros Hq. rewrite clamp01_fin.
  destruct (Qle_bool 1 q) eqn:E1; [reflexivity|].
  apply leb_false_lt in E1. lra.
Qed.

Lemma clamp01_inside (P : Platform) (q : Q) :
  (0 <= q <= 1)%Q ->
  exists q', clamp01 P (VNum (Fin q)) = Fin q' /\ (q' == q)%Q.
Proof.
  intros Hq. rewrite clamp01_fin.
  destruct (Qle_bool 1 q) eqn:E1.
  - apply leb_true_le in E1. exists 1%Q. split; [reflexivity | lra].
  - destruct (Qle_bool 0 q) eqn:E0.
    + exists q. split; [reflexivity | lra].
    + apply leb_false_lt in E0. lra.
Qed.

End NumFacts.

(** * Properties of the loaders *)

Module LoaderFacts.
Import Eff Dom Loader.

(** Running a computation means unfolding the plumbing. *)
Ltac run :=
  unfold setBackgroundImageFromBytes, loadFontFromBytes, loadSeparatorImage,
    loadBundledFont, disposeBackground, clearCustomFont, revokeObjectUrl,
    set_bgObjectUrl, set_bgImg, set_customFontFamily, set_separatorImg,
    set_fontFamily, set_fontLoaded, revokeObjectURL, getElementById,
    createObjectURL, resize, fonts_add, await, try_catch, get_state,
    modify_state, emit, mbind, M_bind, bind, ret, throw;
  cbn [fst snd state elements nextUrl fonts events
       bgImg bgObjectUrl fontFamily customFontFamily separatorImg fontLoaded].

Lemma bg_live_app (l1 l2 : list Event) :
  Log.bg_live (l1 ++ l2) = fold_left Log.live_step l2 (Log.bg_live l1).
Proof. unfold Log.bg_live. apply fold_left_app. Qed.

Lemma revoked_app (l1 l2 : list Event) :
  Log.revoked (l1 ++ l2) = Log.revoked l1 ++ Log.revoked l2.
Proof. unfold Log.revoked. apply flat_map_app. Qed.

Lemma filter_self (u : Url) :
  List.filter (fun v => negb (Nat.eqb u v)) [u] = [].
Proof. simpl. now rewrite Nat.eqb_refl. Qed.

(** *** A successful background load *)

Lemma setBackground_success (P : Platform) (canvasId : jstring)
    (bytes : list Byte.byte) (w : World) (canvas : Canvas) (d : ImageDims) :
  elements w !! canvasId = Some canvas ->
  decodeImage P bytes = Some d ->
  setBackgroundImageFromBytes P canvasId bytes w
  = (Ok tt,
     {| state :=
          {| bgImg := Some (mkImage (SrcBlob (nextUrl w)) d);
             bgObjectUrl := Some (nextUrl w);
             fontFamily := fontFamily (state w);
             customFontFamily := customFontFamily (state w);
             separatorImg := separatorImg (state w);
             fontLoaded := fontLoaded (state w) |};
        elements :=
          <[canvasId :=
              {| has2d := has2d canvas;
                 cv_width := or_else (d_naturalWidth d) (d_width d);
                 cv_height := or_else (d_naturalHeight d) (d_height d) |}]>
            (elements w);
        nextUrl := S (nextUrl w);
        fonts := fonts w;
        events :=
          (events w ++ [EvCreate (nextUrl w)])
          ++ match bgObjectUrl (state w) with
             | Some u => [EvRevoke u]
             | None => []
             end
          ++ [EvSetBgObjectUrl (Some (nextUrl w))] |}).
Proof.
  intros Hel Hdec. run. rewrite Hel. cbn. rewrite Hdec. cbn.
  destruct (bgObjectUrl (state w)); cbn; rewrite <- ?app_assoc;
    reflexivity.
Qed.

(** *** A failed load *)

Lemma setBackground_failure (P : Platform) (canvasId : jstring)
    (bytes : list Byte.byte) (w : World) (msg : jstring) :
  fst (setBackgroundImageFromBytes P canvasId bytes w) = Throw msg ->
  state (snd (setBackgroundImageFromBytes P canvasId bytes w)) = state w.
Proof.
  destruct (elements w !! canvasId) as [canvas|] eqn:Hel.
  - destruct (decodeImage P bytes) as [d|] eqn:Hdec.
    + rewrite (setBackground_success P canvasId bytes w canvas d Hel Hdec).
      discriminate.
    + run. rewrite Hel. cbn. rewrite Hdec. reflexivity.
  - run. rewrite Hel. reflexivity.
Qed.

Lemma loadFont_failure (P : Platform) (fontBytes : list Byte.byte)
    (familyName : jstring) (w : World) (msg : jstring) :
  fst (loadFontFromBytes P fontBytes familyName w) = Throw msg ->
  state (snd (loadFontFromBytes P fontBytes familyName w)) = state w.
Proof.
  run. destruct (loadFontBytes P fontBytes familyName); cbn;
    [discriminate | reflexivity].
Qed.

Lemma loadSeparator_failure (P : Platform) (url : jstring) (w : World)
    (msg : jstring) :
  fst (loadSeparatorImage P url w) = Throw msg ->
  state (snd (loadSeparatorImage P url w)) = state w.
Proof.
  run. destruct (fetchImage P url) as [d|]; cbn;
    [discriminate | reflexivity].
Qed.

(** A failed background load nevertheless leaves the URL it created
    behind. *)
Lemma setBackground_failure_leaves_url (P : Platform) (canvasId : jstring)
    (bytes : list Byte.byte) (w : World) (canvas : Canvas) :
  elements w !! canvasId = Some canvas ->
  decodeImage P bytes = None ->
  events (snd (setBackgroundImageFromBytes P canvasId bytes w))
  = events w ++ [EvCreate (nextUrl w)].
Proof.
  intros Hel Hdec. run. rewrite Hel. cbn. rewrite Hdec. reflexivity.
Qed.

Lemma or_else_detached (n m : N) : m = n -> or_else n m = n.
Proof. intros ->. unfold or_else. destruct (N.eqb_spec n 0); congruence. Qed.

(** The points in time between two logs, the second extending the first by
    three events. *)
Lemma between_three (l p : list Event) (a b c : Event) :
  Log.prefix_of l p -> Log.prefix_of p (l ++ [a; b; c]) ->
  p = l \/ p = l ++ [a] \/ p = l ++ [a; b] \/ p = l ++ [a; b; c].
Proof.
  intros [q1 ->] [q2 H]. rewrite <- app_assoc in H.
  apply app_inv_head in H.
  destruct q1 as [|x1 [|x2 [|x3 [|x4 q1]]]]; simpl in H.
  - left. now rewrite app_nil_r.
  - right. left. now inversion H.
  - right. right. left. now inversion H.
  - right. right. right. now inversion H.
  - discriminate H.
Qed.

(** *** Disposal *)

Lemma disposeBackground_run (w : World) :
  disposeBackground w
  = (Ok tt,
     {| state :=
          {| bgImg := None; bgObjectUrl := None;
             fontFamily := fontFamily (state w);
             customFontFamily := customFontFamily (state w);
             separatorImg := separatorImg (state w);
             fontLoaded := fontLoaded (state w) |};
        elements := elements w;
        nextUrl := nextUrl w;
        fonts := fonts w;
        events :=
          (events w
           ++ match bgObjectUrl (state w) with
              | Some u => [EvRevoke u]
              | None => []
              end)
          ++ [EvSetBgObjectUrl None] |}).
Proof.
  run. destruct (bgObjectUrl (state w)); cbn; rewrite ?app_nil_r;
    reflexivity.
Qed.

End LoaderFacts.

(** * Properties of the renderer *)

Module RenderFacts.
Import Val Render.

Lemma applyShadow_on (P : Platform) (o : Options) :
  truthy (withShadow o) = true ->
  applyShadow P o
  = [SetShadowColor (js "rgba(0,0,0,0.75)"); SetShadowBlur (Fin 0);
     SetShadowOffsetX (shadowOffset P o); SetShadowOffsetY (shadowOffset P o)].
Proof. intros H. unfold applyShadow. now rewrite H. Qed.

Lemma fill_lines_text (x y h : num) (lines : list jstring) :
  forall i, Forall (fun op => exists l a b, op = FillText l a b)
              (fill_lines x y h i lines).
Proof.
  induction lines as [|l lines IH]; intros i; simpl; constructor; eauto.
Qed.

(** The offsets a list of operations assigns to the shadow. *)
Lemma shadow_offsets_app (a b : list DrawOp) :
  shadow_offsets (a ++ b) = shadow_offsets a ++ shadow_offsets b.
Proof. unfold shadow_offsets. apply flat_map_app. Qed.

Lemma shadow_offsets_fill (x y h : num) (lines : list jstring) (i : nat) :
  shadow_offsets (fill_lines x y h i lines) = [].
Proof.
  revert i. induction lines as [|l lines IH]; intros i; [reflexivity|].
  simpl. apply IH.
Qed.

Lemma shadow_offsets_name (P : Platform) (s : RenderState) (cw ch : N)
    (o : Options) :
  truthy (withShadow o) = true ->
  shadow_offsets (name_ops P s cw ch o)
  = if truthy (showName o) then [shadowOffset P o; shadowOffset P o] else [].
Proof.
  intros H. unfold name_ops. destruct (truthy (showName o)); [|reflexivity].
  rewrite (applyShadow_on P o H). reflexivity.
Qed.

Lemma shadow_offsets_line (P : Platform) (s : RenderState) (cw ch : N)
    (o : Options) :
  shadow_offsets (line_ops P s cw ch o) = [].
Proof.
  unfold line_ops. destruct (separatorImg s); [|reflexivity].
  now destruct (truthy (showLine o)).
Qed.

Lemma shadow_offsets_body (P : Platform) (s : RenderState) (cw ch : N)
    (o : Options) :
  truthy (withShadow o) = true ->
  shadow_offsets (body_ops P s cw ch o)
  = [shadowOffset P o; shadowOffset P o].
Proof.
  intros H. unfold body_ops. rewrite (applyShadow_on P o H).
  rewrite !shadow_offsets_app, shadow_offsets_fill. reflexivity.
Qed.

(** What a successful [render] assigns to the shadow offsets. *)
Lemma render_shadow_offsets (P : Platform) (w : World) (canvasId : jstring)
    (o : Options) (ops : list DrawOp) :
  truthy (withShadow o) = true ->
  render P w canvasId o = Ok ops ->
  shadow_offsets ops
  = match bgImg (state w) with
    | None => []
    | Some _ =>
        (if truthy (showName o) then [shadowOffset P o; shadowOffset P o]
         else [])
        ++ [shadowOffset P o; shadowOffset P o]
    end.
Proof.
  intros Hs. unfold render.
  destruct (elements w !! canvasId) as [canvas|]; [|discriminate].
  destruct (has2d canvas); [|discriminate]. cbn [negb].
  destruct (bgImg (state w)) as [img|]; intros [= <-]; [|reflexivity].
  set (cw := cv_width canvas). set (ch := cv_height canvas).
  change (shadow_offsets (name_ops P (state w) cw ch o
                          ++ line_ops P (state w) cw ch o
                          ++ body_ops P (state w) cw ch o)
          = (if truthy (showName o)
             then [shadowOffset P o; shadowOffset P o] else [])
            ++ [shadowOffset P o; shadowOffset P o]).
  rewrite !shadow_offsets_app, shadow_offsets_name, shadow_offsets_line,
    shadow_offsets_body by assumption.
  reflexivity.
Qed.

(** With a background loaded, the body block ends the list of operations,
    and it sets the shadow. *)
Lemma render_ends_with_body (P : Platform) (w : World) (canvasId : jstring)
    (o : Options) (ops : list DrawOp) (img : Image) :
  bgImg (state w) = Some img ->
  render P w canvasId o = Ok ops ->
  exists (canvas : Canvas) (before : list DrawOp),
    elements w !! canvasId = Some canvas
    /\ ops = before
             ++ body_ops P (state w) (cv_width canvas) (cv_height canvas) o.
Proof.
  intros Himg. unfold render.
  destruct (elements w !! canvasId) as [canvas|]; [|discriminate].
  destruct (has2d canvas); [|discriminate]. cbn [negb].
  rewrite Himg. intros Hr. exists canvas.
  exists ([ClearRect (Fin 0) (Fin 0) (Num.of_N (cv_width canvas))
             (Num.of_N (cv_height canvas));
           DrawImage img (Fin 0) (Fin 0) (Num.of_N (cv_width canvas))
             (Num.of_N (cv_height canvas));
           SetTextAlign (js "center"); SetTextBaseline (js "alphabetic");
           SetFillStyle (js "white")]
          ++ name_ops P (state w) (cv_width canvas) (cv_height canvas) o
          ++ line_ops P (state w) (cv_width canvas) (cv_height canvas) o).
  split; [reflexivity|].
  injection Hr as <-. rewrite <- !app_assoc. reflexivity.
Qed.

Lemma body_ops_shadow (P : Platform) (s : RenderState) (cw ch : N)
    (o : Options) :
  truthy (withShadow o) = true ->
  In (SetShadowOffsetX (shadowOffset P o)) (body_ops P s cw ch o)
  /\ In (SetShadowOffsetY (shadowOffset P o)) (body_ops P s cw ch o).
Proof.
  intros Hs. unfold body_ops. rewrite (applyShadow_on P o Hs).
  split; apply in_or_app; right; apply in_or_app; left; simpl; tauto.
Qed.

Lemma shadowOffset_negative (P : Platform) (o : Options) (q : Q) :
  shadowOffsetPx o = VNum (Fin q) -> (q < 0)%Q -> shadowOffset P o = Fin 0.
Proof.
  intros Ho Hq. unfold shadowOffset. rewrite Ho. simpl.
  unfold Num.max, Num.leb.
  destruct (Qle_bool 0 q) eqn:E; [|reflexivity].
  apply NumFacts.leb_true_le in E. lra.
Qed.

Lemma shadowOffset_nonnegative (P : Platform) (o : Options) (q : Q) :
  shadowOffsetPx o = VNum (Fin q) -> (0 <= q)%Q -> shadowOffset P o = Fin q.
Proof.
  intros Ho Hq. unfold shadowOffset. rewrite Ho. simpl.
  unfold Num.max, Num.leb.
  destruct (Qle_bool 0 q) eqn:E; [reflexivity|].
  apply NumFacts.leb_false_lt in E. lra.
Qed.

Lemma shadowOffset_missing (P : Platform) (o : Options) :
  shadowOffsetPx o = VUndefined \/ shadowOffsetPx o = VNull ->
  shadowOffset P o = Fin 2.
Proof. intros [Ho|Ho]; unfold shadowOffset; now rewrite Ho. Qed.

(** *** The separator *)

(** With both coordinates of the name anchor supplied as numbers the
    separator anchor is the name anchor moved by the two offsets, then
    clamped. *)
Lemma bar_anchor_supplied (P : Platform) (o : Options) (x y : Q) :
  nameX01 o = VNum (Fin x) -> nameY01 o = VNum (Fin y) ->
  barX01 P o = clamp01 P (VNum (Fin (x + - (1 # 4))))
  /\ barY01 P o = clamp01 P (VNum (Fin (y + (1 # 40)))).
Proof.
  intros Hx Hy. unfold barX01, barY01. now rewrite Hx, Hy.
Qed.

(** With a coordinate left out the arithmetic yields NaN, which is not
    nullish, so the written default is never taken. *)
Lemma bar_anchor_missing (P : Platform) (o : Options) :
  (nameX01 o = VUndefined -> barX01 P o = Fin 0)
  /\ (nameY01 o = VUndefined -> barY01 P o = Fin 0).
Proof.
  split; intros H; unfold barX01, barY01; now rewrite H.
Qed.

Lemma name_anchor_missing (P : Platform) (o : Options) :
  (nameX01 o = VUndefined -> name_x01 P o = Fin (1 # 5))
  /\ (nameY01 o = VUndefined -> name_y01 P o = Fin (4 # 5)).
Proof.
  split; intros H; unfold name_x01, name_y01; now rewrite H.
Qed.

(** Where and how large the separator is drawn. *)
Lemma render_separator (P : Platform) (w : World) (canvasId : jstring)
    (o : Options) (canvas : Canvas) (bg sep : Image) :
  elements w !! canvasId = Some canvas -> has2d canvas = true ->
  bgImg (state w) = Some bg -> separatorImg (state w) = Some sep ->
  truthy (showLine o) = true ->
  exists ops,
    render P w canvasId o = Ok ops
    /\ In (DrawImage sep (pixel (cv_width canvas) (barX01 P o))
             (pixel (cv_height canvas) (barY01 P o)) (Fin 552) (Fin 8)) ops.
Proof.
  intros Hel H2d Hbg Hsep Hline. unfold render.
  rewrite Hel, H2d, Hbg. cbn [negb]. eexists. split; [reflexivity|].
  rewrite !in_app_iff. right. right. left.
  unfold line_ops. rewrite Hsep, Hline. simpl. tauto.
Qed.

End RenderFacts.

(** * Main results *)

Section LineWrapper.

Variable measureText : jstring -> Q.
Variable maxWidth : Q.

(** C1.  Every line that [wrapLines] returns measures at most [maxWidth], or
    else it is a single character whose own measure exceeds [maxWidth].
    This holds for every [maxWidth], so in particular for the positive
    ones. *)
Theorem wrapLines_line_width (text : option jstring) :
  Forall (fun l => (measureText l <= maxWidth)%Q
                   \/ (Str.single_char l /\ (maxWidth < measureText l)%Q))
    (Wrap.wrapLines measureText maxWidth text).
Proof.
  unfold Wrap.wrapLines.
  eapply List.Forall_impl; [|apply WrapFacts.wrapParagraphs_width].
  intros l [Hfit|Hone].
  - left. now apply Qle_bool_iff.
  - destruct (Wrap.fits measureText maxWidth l) eqn:E.
    + left. now apply Qle_bool_iff.
    + right. split; [exact Hone | now apply NumFacts.leb_false_lt].
Qed.

(** C2.  The non-whitespace characters of the concatenated lines of
    [wrapLines] are exactly those of the text, in the same order (the
    single-space lines standing for blank paragraphs contribute nothing).
    Paragraph breaks stay where they were: the lines split into consecutive
    groups, one per paragraph of the text and in the same order, each group
    carrying exactly the non-whitespace characters of its paragraph; a group
    is never empty unless the empty string itself measures more than
    [maxWidth]. *)
Theorem wrapLines_keeps_content (text : jstring) :
  Str.nonws (concat (Wrap.wrapLines measureText maxWidth (Some text)))
  = Str.nonws text
  /\ exists groups : list (list jstring),
       Wrap.wrapLines measureText maxWidth (Some text) = concat groups
       /\ Forall2 (fun g p => Str.nonws (concat g) = Str.nonws p
                              /\ (g <> [] \/ (maxWidth < measureText [])%Q))
            groups (Wrap.paragraphs (Some text)).
Proof.
  split.
  - unfold Wrap.wrapLines.
    rewrite WrapFacts.wrapParagraphs_content.
    apply (WrapFacts.nonws_paragraphs (Some text)).
  - exists (map (fun p => Wrap.wrapParagraphs measureText maxWidth [p])
              (Wrap.paragraphs (Some text))).
    split; [apply WrapFacts.wrapParagraphs_concat|].
    induction (Wrap.paragraphs (Some text)) as [|p ps IH]; simpl;
      constructor; [|exact IH].
    split; [|apply WrapFacts.wrapParagraphs_one_not_nil].
    rewrite WrapFacts.wrapParagraphs_content. simpl. now rewrite app_nil_r.
Qed.

(** C8.  The empty text gives exactly one line, a single space.  Wherever
    the text has an empty paragraph, exactly one line stands for it in the
    result, and that line is a single space.  No returned line is empty. *)
Theorem wrapLines_blank_paragraphs :
  Wrap.wrapLines measureText maxWidth (Some []) = [js " "]
  /\ (forall (text : option jstring) (before after : list jstring),
        Wrap.paragraphs text = before ++ [] :: after ->
        Wrap.wrapLines measureText maxWidth text
        = Wrap.wrapParagraphs measureText maxWidth before
          ++ [js " "]
          ++ Wrap.wrapParagraphs measureText maxWidth after)
  /\ (forall text : option jstring,
        Forall (fun l => l <> [])
          (Wrap.wrapLines measureText maxWidth text)).
Proof.
  split; [|split].
  - apply WrapFacts.wrapParagraphs_blank.
  - intros text before after H. unfold Wrap.wrapLines. rewrite H.
    change ([] :: after) with ([[]] ++ after).
    now rewrite !WrapFacts.wrapParagraphs_app,
      WrapFacts.wrapParagraphs_blank.
  - intros text. unfold Wrap.wrapLines, Wrap.wrapParagraphs.
    induction (fold_left _ (fold_left _ _ _) _) as [|l ls IH]; simpl;
      constructor; [apply WrapFacts.blank_to_space_not_nil | exact IH].
Qed.

End LineWrapper.

(** The blank paragraph of ["a\n\nb"] comes out as one single-space line
    between the lines of its neighbours. *)
Lemma wrapLines_blank_paragraphs_witness :
  Wrap.paragraphs (Some Example.blank_between) = [js "a"] ++ [] :: [js "b"]
  /\ Wrap.wrapLines Example.width10 50 (Some Example.blank_between)
     = Wrap.wrapParagraphs Example.width10 50 [js "a"]
       ++ [js " "]
       ++ Wrap.wrapParagraphs Example.width10 50 [js "b"].
Proof.
  split; [reflexivity|].
  apply (proj1 (proj2 (wrapLines_blank_paragraphs Example.width10 50))).
  reflexivity.
Defined.

Section Anchors.

Variable P : Platform.

(** C6.  [clamp01] answers with a number of the interval from 0 to 1 for
    every value, numeric or not; a number below 0 gives 0, a number above 1
    gives 1, a number in between gives itself, and NaN, the infinities and
    every other value that is not a finite number give 0.  In particular
    -0.5 gives 0 and 1.7 gives 1.  Every anchor that [render] interpolates
    went through it. *)
Theorem clamp01_clamps :
  (forall v : jsval, in_unit (clamp01 P v))
  /\ (forall q : Q, (q < 0)%Q -> clamp01 P (VNum (Fin q)) = Fin 0)
  /\ (forall q : Q, (1 < q)%Q -> clamp01 P (VNum (Fin q)) = Fin 1)
  /\ (forall q : Q, (0 <= q <= 1)%Q ->
        exists q', clamp01 P (VNum (Fin q)) = Fin q' /\ (q' == q)%Q)
  /\ (forall v : jsval, Num.isFinite (Val.toNumber P v) = false ->
        clamp01 P v = Fin 0)
  /\ clamp01 P (VNum (Fin (- (1 # 2)))) = Fin 0
  /\ clamp01 P (VNum (Fin (17 # 10))) = Fin 1
  /\ clamp01 P (VNum NaN) = Fin 0
  /\ clamp01 P (VNum PInf) = Fin 0
  /\ clamp01 P (VNum NInf) = Fin 0
  /\ clamp01 P VUndefined = Fin 0
  /\ (forall o : Options,
        Forall in_unit
          [Render.name_x01 P o; Render.name_y01 P o;
           Render.barX01 P o; Render.barY01 P o;
           Render.body_x01 P o; Render.body_y01 P o]).
Proof.
  repeat split; try reflexivity.
  - apply NumFacts.clamp01_in_unit.
  - apply NumFacts.clamp01_below.
  - apply NumFacts.clamp01_above.
  - apply NumFacts.clamp01_inside.
  - apply NumFacts.clamp01_not_finite.
  - intros o. repeat constructor; apply NumFacts.clamp01_in_unit.
Qed.

End Anchors.

Lemma clamp01_clamps_witness :
  ((- (3 # 4) < 0)%Q /\ clamp01 Example.P0 (VNum (Fin (- (3 # 4)))) = Fin 0)
  /\ ((1 < 5 # 2)%Q /\ clamp01 Example.P0 (VNum (Fin (5 # 2))) = Fin 1).
Proof.
  split; (split; [reflexivity|]).
  - apply (proj1 (proj2 (clamp01_clamps Example.P0))). reflexivity.
  - apply (proj1 (proj2 (proj2 (clamp01_clamps Example.P0)))). reflexivity.
Defined.

Section Loaders.

Variable P : Platform.

(** C4.  When [setBackgroundImageFromBytes], [loadFontFromBytes] or
    [loadSeparatorImage] fails (the canvas is missing, or the image or font
    does not decode), the failure reaches the caller and every field of
    [_state] keeps the value it had before the call. *)
Theorem loader_failure_keeps_state (c : Loader.LoaderCall) (w : World)
    (msg : jstring) :
  fst (Loader.run_loader P c w) = Throw msg ->
  state (snd (Loader.run_loader P c w)) = state w.
Proof.
  destruct c as [canvasId bytes | fontBytes familyName | url]; simpl.
  - apply LoaderFacts.setBackground_failure.
  - apply LoaderFacts.loadFont_failure.
  - apply LoaderFacts.loadSeparator_failure.
Qed.

(** C5.  With background A loaded under the handle [uA], a successful
    [setBackgroundImageFromBytes] for B creates B's handle, releases [uA]
    and nothing else, and only then stores B's handle; afterwards the canvas
    has the natural size of B.  At every point in time of the call at most
    one handle that was stored in [_state.bgObjectUrl] is unreleased, and at
    the end it is B's. *)
Theorem setBackground_replaces_handle (w : World) (canvasId : jstring)
    (bytes : list Byte.byte) (canvas : Canvas) (uA : Url) (imgA : Image)
    (d : ImageDims) :
  elements w !! canvasId = Some canvas ->
  bgObjectUrl (state w) = Some uA ->
  bgImg (state w) = Some imgA ->
  decodeImage P bytes = Some d ->
  detached (mkImage (SrcBlob (nextUrl w)) d) ->
  Log.bg_live (events w) = [uA] ->
  exists (w' : World) (imgB : Image) (canvas' : Canvas),
    Loader.setBackgroundImageFromBytes P canvasId bytes w = (Ok tt, w')
    /\ events w'
       = events w ++ [EvCreate (nextUrl w); EvRevoke uA;
                      EvSetBgObjectUrl (Some (nextUrl w))]
    /\ Log.revoked (events w') = Log.revoked (events w) ++ [uA]
    /\ bgObjectUrl (state w') = Some (nextUrl w)
    /\ bgImg (state w') = Some imgB
    /\ imgB = mkImage (SrcBlob (nextUrl w)) d
    /\ elements w' !! canvasId = Some canvas'
    /\ cv_width canvas' = naturalWidth imgB
    /\ cv_height canvas' = naturalHeight imgB
    /\ (forall p : list Event,
          Log.prefix_of (events w) p -> Log.prefix_of p (events w') ->
          (length (Log.bg_live p) <= 1)%nat)
    /\ Log.bg_live (events w') = [nextUrl w].
Proof.
  intros Hel HuA _ Hdec [Hw Hh] Hlive.
  rewrite (LoaderFacts.setBackground_success P canvasId bytes w canvas d
             Hel Hdec).
  rewrite HuA. simpl in Hw, Hh.
  eexists. exists (mkImage (SrcBlob (nextUrl w)) d). eexists.
  split; [reflexivity|]. cbn [events state bgObjectUrl bgImg elements].
  rewrite <- !app_assoc. cbn [app].
  split; [reflexivity|].
  split; [rewrite LoaderFacts.revoked_app; reflexivity|].
  split; [reflexivity|]. split; [reflexivity|]. split; [reflexivity|].
  split; [apply lookup_insert_eq|].
  split; [now apply LoaderFacts.or_else_detached|].
  split; [now apply LoaderFacts.or_else_detached|].
  split.
  - intros p Hp1 Hp2.
    destruct (LoaderFacts.between_three _ _ _ _ _ Hp1 Hp2)
      as [-> | [-> | [-> | ->]]];
      rewrite ?LoaderFacts.bg_live_app, Hlive; cbn [fold_left Log.live_step];
      rewrite ?LoaderFacts.filter_self; simpl; lia.
  - rewrite LoaderFacts.bg_live_app, Hlive. cbn [fold_left Log.live_step].
    now rewrite LoaderFacts.filter_self.
Qed.

End Loaders.

(** A load whose bytes do not decode, on a page whose background is set. *)
Lemma loader_failure_keeps_state_witness :
  fst (Loader.run_loader Example.P0
         (Loader.CallSetBackground Example.canvasId []) Example.w_bgA)
  = Throw (js "failed to load image")
  /\ state (snd (Loader.run_loader Example.P0
                   (Loader.CallSetBackground Example.canvasId [])
                   Example.w_bgA))
     = state Example.w_bgA.
Proof.
  split; [vm_compute; reflexivity|].
  apply (loader_failure_keeps_state Example.P0
           (Loader.CallSetBackground Example.canvasId []) Example.w_bgA
           (js "failed to load image")).
  vm_compute. reflexivity.
Defined.

(** Setting a second background on the example page. *)
Lemma setBackground_replaces_handle_witness :
  exists (w' : World) (imgB : Image) (canvas' : Canvas),
    Loader.setBackgroundImageFromBytes Example.P0 Example.canvasId
      [Byte.x02] Example.w_bgA = (Ok tt, w')
    /\ events w'
       = events Example.w_bgA
         ++ [EvCreate (nextUrl Example.w_bgA); EvRevoke 0;
             EvSetBgObjectUrl (Some (nextUrl Example.w_bgA))]
    /\ Log.revoked (events w') = Log.revoked (events Example.w_bgA) ++ [0]
    /\ bgObjectUrl (state w') = Some (nextUrl Example.w_bgA)
    /\ bgImg (state w') = Some imgB
    /\ imgB = mkImage (SrcBlob (nextUrl Example.w_bgA))
                {| d_naturalWidth := 800; d_naturalHeight := 600;
                   d_width := 800; d_height := 600 |}
    /\ elements w' !! Example.canvasId = Some canvas'
    /\ cv_width canvas' = naturalWidth imgB
    /\ cv_height canvas' = naturalHeight imgB
    /\ (forall p : list Event,
          Log.prefix_of (events Example.w_bgA) p ->
          Log.prefix_of p (events w') ->
          (length (Log.bg_live p) <= 1)%nat)
    /\ Log.bg_live (events w') = [nextUrl Example.w_bgA].
Proof.
  apply (setBackground_replaces_handle Example.P0 Example.w_bgA
           Example.canvasId [Byte.x02]
           {| has2d := true; cv_width := 800; cv_height := 600 |} 0
           (mkImage (SrcBlob 0)
              {| d_naturalWidth := 800; d_naturalHeight := 600;
                 d_width := 800; d_height := 600 |})
           {| d_naturalWidth := 800; d_naturalHeight := 600;
              d_width := 800; d_height := 600 |});
    try (vm_compute; reflexivity).
  split; reflexivity.
Defined.

(** C7.  [disposeBackground] never fails, and calling it a second time
    changes nothing: [_state] is the same as after the first call (both
    background fields cleared), and the second call releases no handle. *)
Theorem disposeBackground_twice (w : World) :
  exists w1 w2 : World,
    Loader.disposeBackground w = (Ok tt, w1)
    /\ Loader.disposeBackground w1 = (Ok tt, w2)
    /\ state w2 = state w1
    /\ bgImg (state w1) = None
    /\ bgObjectUrl (state w1) = None
    /\ elements w2 = elements w1
    /\ nextUrl w2 = nextUrl w1
    /\ fonts w2 = fonts w1
    /\ events w2 = events w1 ++ [EvSetBgObjectUrl None]
    /\ Log.revoked (events w2) = Log.revoked (events w1)
    /\ Log.bg_live (events w2) = Log.bg_live (events w1).
Proof.
  eexists. eexists.
  split; [apply LoaderFacts.disposeBackground_run|].
  split; [apply LoaderFacts.disposeBackground_run|].
  cbn [state events elements nextUrl fonts bgImg bgObjectUrl fontFamily
       customFontFamily separatorImg fontLoaded].
  rewrite !app_nil_r.
  repeat split.
  - rewrite (LoaderFacts.revoked_app _ [EvSetBgObjectUrl None]).
    simpl. now rewrite app_nil_r.
  - now rewrite (LoaderFacts.bg_live_app _ [EvSetBgObjectUrl None]).
Qed.

Section Renderer.

Variable P : Platform.

(** C9.  With the canvas and its context at hand and no background loaded,
    [render] clears the canvas, draws nothing else, and returns normally. *)
Theorem render_without_background (w : World) (canvasId : jstring)
    (o : Options) (canvas : Canvas) :
  elements w !! canvasId = Some canvas ->
  has2d canvas = true ->
  bgImg (state w) = None ->
  Render.render P w canvasId o
  = Ok [ClearRect (Fin 0) (Fin 0) (Num.of_N (cv_width canvas))
          (Num.of_N (cv_height canvas))].
Proof.
  intros Hel H2d Hbg. unfold Render.render.
  now rewrite Hel, H2d, Hbg.
Qed.

(** C10.  With [withShadow] set, every value that [render] assigns to
    [shadowOffsetX] or [shadowOffsetY] is
    [Math.max(0, options.shadowOffsetPx ?? 2)]; when a background is loaded
    both are assigned.  That value is 0 for a negative [shadowOffsetPx], the
    number itself when it is not negative, and 2 when the option is
    [undefined] or [null]. *)
Theorem render_shadow_offset (w : World) (canvasId : jstring) (o : Options)
    (ops : list DrawOp) :
  Val.truthy (withShadow o) = true ->
  Render.render P w canvasId o = Ok ops ->
  Forall (fun v => v = Num.max (Fin 0)
                        (Val.toNumber P
                           (Val.nullish (shadowOffsetPx o) (VNum (Fin 2)))))
    (Render.shadow_offsets ops)
  /\ (forall img : Image, bgImg (state w) = Some img ->
        In (SetShadowOffsetX (Render.shadowOffset P o)) ops
        /\ In (SetShadowOffsetY (Render.shadowOffset P o)) ops)
  /\ (forall q : Q, shadowOffsetPx o = VNum (Fin q) -> (q < 0)%Q ->
        Render.shadowOffset P o = Fin 0)
  /\ (forall q : Q, shadowOffsetPx o = VNum (Fin q) -> (0 <= q)%Q ->
        Render.shadowOffset P o = Fin q)
  /\ (shadowOffsetPx o = VUndefined \/ shadowOffsetPx o = VNull ->
        Render.shadowOffset P o = Fin 2).
Proof.
  intros Hs Hr.
  split; [|split; [|split; [|split]]].
  - rewrite (RenderFacts.render_shadow_offsets P w canvasId o ops Hs Hr).
    fold (Render.shadowOffset P o).
    destruct (bgImg (state w)); [|constructor].
    destruct (Val.truthy (showName o)); repeat constructor.
  - intros img Himg.
    destruct (RenderFacts.render_ends_with_body P w canvasId o ops img
                Himg Hr) as (canvas & before & _ & ->).
    destruct (RenderFacts.body_ops_shadow P (state w) (cv_width canvas)
                (cv_height canvas) o Hs) as [Hx Hy].
    split; apply in_or_app; right; assumption.
  - apply RenderFacts.shadowOffset_negative.
  - apply RenderFacts.shadowOffset_nonnegative.
  - apply RenderFacts.shadowOffset_missing.
Qed.

End Renderer.

Lemma render_without_background_witness :
  Render.render Example.P0 Example.w_empty Example.canvasId Example.o_default
  = Ok [ClearRect (Fin 0) (Fin 0) (Num.of_N 300) (Num.of_N 150)].
Proof.
  apply (render_without_background Example.P0 Example.w_empty
           Example.canvasId Example.o_default
           {| has2d := true; cv_width := 300; cv_height := 150 |});
    vm_compute; reflexivity.
Defined.

(** The example options ask for a shadow offset of -3 pixels. *)
Lemma render_shadow_offset_witness :
  exists ops : list DrawOp,
    Render.render Example.P0 Example.w_ready Example.canvasId
      Example.o_default = Ok ops
    /\ Forall (fun v => v = Fin 0) (Render.shadow_offsets ops)
    /\ In (SetShadowOffsetX (Fin 0)) ops
    /\ In (SetShadowOffsetY (Fin 0)) ops.
Proof.
  eexists. split; [vm_compute; reflexivity|].
  match goal with
  | |- Forall _ (Render.shadow_offsets ?ops) /\ _ =>
      pose proof (render_shadow_offset Example.P0 Example.w_ready
                    Example.canvasId Example.o_default ops eq_refl) as H
  end.
  destruct H as (Hall & Hin & _); [vm_compute; reflexivity|].
  split; [exact Hall|].
  destruct (Hin (mkImage (SrcBlob 0)
                   {| d_naturalWidth := 800; d_naturalHeight := 600;
                      d_width := 800; d_height := 600 |}) eq_refl)
    as [Hx Hy].
  split; [exact Hx | exact Hy].
Defined.

(** C3, at the options that leave the name anchor out.  The name is drawn at
    its default anchor (0.20, 0.80), pixel (160, 480) on the 800 by 600
    canvas, but the separator anchor is (0, 0): its vertical coordinate is
    0 where the name anchor moved by 0.025 would give 0.825, pixel 495. *)
Theorem separator_anchor_defaults :
  Render.name_y01 Example.P0 Example.o_default = Fin (4 # 5)
  /\ Render.barY01 Example.P0 Example.o_default = Fin 0
  /\ clamp01 Example.P0 (VNum (Fin ((4 # 5) + (1 # 40)))) = Fin ((4 # 5) + (1 # 40))
  /\ exists ops : list DrawOp,
       Render.render Example.P0 Example.w_ready Example.canvasId
         Example.o_default = Ok ops
       /\ In (FillText (js "Uma") (Fin 160) (Fin 480)) ops
       /\ In (DrawImage Example.separator (Fin 0) (Fin 0) (Fin 552) (Fin 8))
            ops.
Proof.
  split; [reflexivity|]. split; [reflexivity|]. split; [reflexivity|].
  eexists. split; [vm_compute; reflexivity|].
  split; vm_compute; tauto.
Qed.

(** * Further properties *)

Module TraceFacts.
Import Val Render Trace.













(** [render] once the canvas, its context and a background are there. *)
Lemma render_drawing (P : Platform) (w : World) (canvasId : jstring)
    (o : Options) (canvas : Canvas) (bg : Image) :
  elements w !! canvasId = Some canvas -> has2d canvas = true ->
  bgImg (state w) = Some bg ->
  render P w canvasId o
  = Ok ([ClearRect (Fin 0) (Fin 0) (Num.of_N (cv_width canvas))
           (Num.of_N (cv_height canvas));
         DrawImage bg (Fin 0) (Fin 0) (Num.of_N (cv_width canvas))
           (Num.of_N (cv_height canvas));
         SetTextAlign (js "center"); SetTextBaseline (js "alphabetic");
         SetFillStyle (js "white")]
        ++ name_ops P (state w) (cv_width canvas) (cv_height canvas) o
        ++ line_ops P (state w) (cv_width canvas) (cv_height canvas) o
        ++ body_ops P (state w) (cv_width canvas) (cv_height canvas) o).
Proof.
  intros Hel H2d Hbg. unfold render. now rewrite Hel, H2d, Hbg.
Qed.

End TraceFacts.

Module PixelFacts.
Import Val Render.



End PixelFacts.

Module SessionFacts.
Import Eff Dom Loader Session LoaderFacts.

Lemma unreleased_app (l1 l2 : list Event) :
  Urls.unreleased (l1 ++ l2) = fold_left Urls.step l2 (Urls.unreleased l1).
Proof. unfold Urls.unreleased. apply fold_left_app. Qed.

Lemma filter_other (n : Url) (l : list Url) :
  Forall (fun u => u <> n) l ->
  List.filter (fun v => negb (Nat.eqb n v)) l = l.
Proof.
  induction 1 as [|u l Hu _ IH]; [reflexivity|].
  simpl. destruct (Nat.eqb_spec n u); [congruence|]. simpl. now rewrite IH.
Qed.

Lemma filter_fresh (n : Url) (l : list Url) :
  Forall (fun u => u < n) l ->
  List.filter (fun v => negb (Nat.eqb n v)) l = l.
Proof.
  intros H. apply filter_other.
  eapply List.Forall_impl; [|exact H]. simpl. intros u Hu. lia.
Qed.

Lemma filter_snoc_self (n : Url) (l : list Url) :
  List.filter (fun v => negb (Nat.eqb n v)) (l ++ [n])
  = List.filter (fun v => negb (Nat.eqb n v)) l.
Proof.
  rewrite List.filter_app. simpl. rewrite Nat.eqb_refl. simpl.
  apply app_nil_r.
Qed.

Lemma Forall_filter_keep (Q : Url -> Prop) (f : Url -> bool) (l : list Url) :
  Forall Q l -> Forall Q (List.filter f l).
Proof.
  induction 1 as [|u l Hu _ IH]; simpl; [constructor|].
  destruct (f u); [constructor|]; assumption.
Qed.

Lemma Forall_lt_S (n : nat) (l : list Url) :
  Forall (fun u => u < n) l -> Forall (fun u => u < S n) l.
Proof. apply List.Forall_impl. intros u Hu. lia. Qed.

(** *** What each call does to the world *)

Lemma setBackground_no_canvas (P : Platform) (canvasId : jstring)
    (bytes : list Byte.byte) (w : World) :
  elements w !! canvasId = None ->
  setBackgroundImageFromBytes P canvasId bytes w
  = (Throw (js "canvas not found"), w).
Proof. intros Hel. run. now rewrite Hel. Qed.

Lemma setBackground_no_decode (P : Platform) (canvasId : jstring)
    (bytes : list Byte.byte) (w : World) (canvas : Canvas) :
  elements w !! canvasId = Some canvas ->
  decodeImage P bytes = None ->
  setBackgroundImageFromBytes P canvasId bytes w
  = (Throw (js "failed to load image"),
     {| state := state w; elements := elements w;
        nextUrl := S (nextUrl w); fonts := fonts w;
        events := events w ++ [EvCreate (nextUrl w)] |}).
Proof. intros Hel Hdec. run. rewrite Hel. cbn. now rewrite Hdec. Qed.

Lemma loadFont_success (P : Platform) (fontBytes : list Byte.byte)
    (familyName : jstring) (w : World) :
  loadFontBytes P fontBytes familyName = true ->
  loadFontFromBytes P fontBytes familyName w
  = (Ok tt,
     {| state :=
          {| bgImg := bgImg (state w); bgObjectUrl := bgObjectUrl (state w);
             fontFamily := fontFamily (state w);
             customFontFamily := Some familyName;
             separatorImg := separatorImg (state w);
             fontLoaded := fontLoaded (state w) |};
        elements := elements w;
        nextUrl := S (nextUrl w);
        fonts := fonts w ++ [familyName];
        events := (events w ++ [EvCreate (nextUrl w)])
                  ++ [EvRevoke (nextUrl w)] |}).
Proof. intros H. run. now rewrite H. Qed.

Lemma loadFont_no_load (P : Platform) (fontBytes : list Byte.byte)
    (familyName : jstring) (w : World) :
  loadFontBytes P fontBytes familyName = false ->
  loadFontFromBytes P fontBytes familyName w
  = (Throw (js "font load failed"),
     {| state := state w; elements := elements w;
        nextUrl := S (nextUrl w); fonts := fonts w;
        events := events w ++ [EvCreate (nextUrl w)] |}).
Proof. intros H. run. now rewrite H. Qed.

Lemma loadBundledFont_run (P : Platform) (family url : jstring)
    (weight : jsval) (w : World) :
  loadBundledFont P family url weight w
  = if loadFontUrl P url family weight then
      (Ok tt,
       {| state :=
            {| bgImg := bgImg (state w);
               bgObjectUrl := bgObjectUrl (state w);
               fontFamily := Some family;
               customFontFamily := customFontFamily (state w);
               separatorImg := separatorImg (state w);
               fontLoaded := Some true |};
          elements := elements w; nextUrl := nextUrl w;
          fonts := fonts w ++ [family]; events := events w |})
    else (Throw (js "font load failed"), w).
Proof. run. now destruct (loadFontUrl P url family weight). Qed.

Lemma loadSeparator_run (P : Platform) (url : jstring) (w : World) :
  loadSeparatorImage P url w
  = match fetchImage P url with
    | Some d =>
        (Ok tt,
         {| state :=
              {| bgImg := bgImg (state w);
                 bgObjectUrl := bgObjectUrl (state w);
                 fontFamily := fontFamily (state w);
                 customFontFamily := customFontFamily (state w);
                 separatorImg := Some (mkImage (SrcLocation url) d);
                 fontLoaded := fontLoaded (state w) |};
            elements := elements w; nextUrl := nextUrl w;
            fonts := fonts w; events := events w |})
    | None => (Throw (js "failed to load separator image"), w)
    end.
Proof. run. now destruct (fetchImage P url). Qed.

Lemma clearCustomFont_run (w : World) :
  clearCustomFont w
  = (Ok tt,
     {| state :=
          {| bgImg := bgImg (state w); bgObjectUrl := bgObjectUrl (state w);
             fontFamily := fontFamily (state w);
             customFontFamily := None;
             separatorImg := separatorImg (state w);
             fontLoaded := fontLoaded (state w) |};
        elements := elements w; nextUrl := nextUrl w;
        fonts := fonts w; events := events w |}).
Proof. reflexivity. Qed.

(** *** The invariant *)

Lemma inv_initial (els : gmap (list N) Canvas) : Inv (initial_world els).
Proof. split; cbn; [reflexivity | discriminate | exact I | constructor]. Qed.

(** A handle held in [_state] is older than the next URL. *)
Lemma inv_held_fresh (w : World) (u : Url) :
  Inv w -> bgObjectUrl (state w) = Some u -> u < nextUrl w.
Proof.
  intros [_ Hk _ Hf] Hu. rewrite List.Forall_forall in Hf.
  apply Hf. now apply Hk.
Qed.

Lemma inv_setBackground (P : Platform) (canvasId : jstring)
    (bytes : list Byte.byte) (w : World) :
  Inv w -> Inv (snd (setBackgroundImageFromBytes P canvasId bytes w)).
Proof.
  intros HI. pose proof HI as [Hl Hk Hp Hf].
  destruct (elements w !! canvasId) as [canvas|] eqn:Hel.
  - destruct (decodeImage P bytes) as [d|] eqn:Hdec.
    + rewrite (setBackground_success P canvasId bytes w canvas d Hel Hdec).
      cbn [snd]. unfold held in Hl.
      destruct (bgObjectUrl (state w)) as [uA|] eqn:HuA.
      * pose proof (inv_held_fresh w uA HI HuA) as HuA'.
        split; cbn [state events nextUrl bgImg bgObjectUrl held].
        -- rewrite !bg_live_app, Hl. cbn. now rewrite Nat.eqb_refl.
        -- intros u [= <-]. rewrite !unreleased_app. cbn.
           rewrite List.filter_app. apply in_or_app. right.
           simpl. destruct (Nat.eqb_spec uA (nextUrl w)); [lia|].
           simpl. now left.
        -- reflexivity.
        -- rewrite !unreleased_app. cbn.
           apply Forall_filter_keep, Forall_app. split.
           ++ now apply Forall_lt_S.
           ++ constructor; [lia | constructor].
      * split; cbn [state events nextUrl bgImg bgObjectUrl held].
        -- rewrite !bg_live_app, Hl. reflexivity.
        -- intros u [= <-]. rewrite !unreleased_app. cbn.
           apply in_or_app. right. now left.
        -- reflexivity.
        -- rewrite !unreleased_app. cbn. apply Forall_app. split.
           ++ now apply Forall_lt_S.
           ++ constructor; [lia | constructor].
    + rewrite (setBackground_no_decode P canvasId bytes w canvas Hel Hdec).
      cbn [snd]. split; cbn [state events nextUrl].
      * now rewrite bg_live_app.
      * intros u Hu. rewrite unreleased_app. cbn.
        apply in_or_app. left. now apply Hk.
      * exact Hp.
      * rewrite unreleased_app. cbn. apply Forall_app. split.
        -- now apply Forall_lt_S.
        -- constructor; [lia | constructor].
  - now rewrite (setBackground_no_canvas P canvasId bytes w Hel).
Qed.

Lemma inv_loadFont (P : Platform) (fontBytes : list Byte.byte)
    (familyName : jstring) (w : World) :
  Inv w -> Inv (snd (loadFontFromBytes P fontBytes familyName w)).
Proof.
  intros HI. pose proof HI as [Hl Hk Hp Hf].
  destruct (loadFontBytes P fontBytes familyName) eqn:Hload.
  - rewrite (loadFont_success P fontBytes familyName w Hload). cbn [snd].
    split; cbn [state events nextUrl bgImg bgObjectUrl held].
    + rewrite !bg_live_app. cbn. rewrite Hl. unfold held.
      destruct (bgObjectUrl (state w)) as [uA|] eqn:HuA; [|reflexivity].
      pose proof (inv_held_fresh w uA HI HuA).
      simpl. destruct (Nat.eqb_spec (nextUrl w) uA); [lia | reflexivity].
    + intros u Hu. rewrite !unreleased_app. cbn.
      rewrite filter_snoc_self, filter_fresh by assumption. now apply Hk.
    + exact Hp.
    + rewrite !unreleased_app. cbn.
      rewrite filter_snoc_self, filter_fresh by assumption.
      now apply Forall_lt_S.
  - rewrite (loadFont_no_load P fontBytes familyName w Hload). cbn [snd].
    split; cbn [state events nextUrl].
    + now rewrite bg_live_app.
    + intros u Hu. rewrite unreleased_app. cbn.
      apply in_or_app. left. now apply Hk.
    + exact Hp.
    + rewrite unreleased_app. cbn. apply Forall_app. split.
      * now apply Forall_lt_S.
      * constructor; [lia | constructor].
Qed.

Lemma inv_dispose (w : World) : Inv w -> Inv (snd (disposeBackground w)).
Proof.
  intros HI. pose proof HI as [Hl Hk Hp Hf].
  rewrite disposeBackground_run. cbn [snd].
  split; cbn [state events nextUrl bgImg bgObjectUrl held].
  - rewrite !bg_live_app, Hl. unfold held.
    destruct (bgObjectUrl (state w)) as [uA|]; cbn;
      [now rewrite Nat.eqb_refl | reflexivity].
  - discriminate.
  - exact I.
  - rewrite !unreleased_app.
    destruct (bgObjectUrl (state w)) as [uA|]; cbn;
      [now apply Forall_filter_keep | assumption].
Qed.

Lemma inv_same_background (w w' : World) :
  bgImg (state w') = bgImg (state w) ->
  bgObjectUrl (state w') = bgObjectUrl (state w) ->
  events w' = events w -> nextUrl w' = nextUrl w ->
  Inv w -> Inv w'.
Proof.
  intros Hi Hu He Hn [Hl Hk Hp Hf].
  split; unfold held in *; rewrite ?Hi, ?Hu, ?He, ?Hn; assumption.
Qed.

Lemma inv_run_op (P : Platform) (op : Op) (w : World) :
  Inv w -> Inv (snd (run_op P op w)).
Proof.
  intros HI.
  destruct op as [family url weight | canvasId bytes | fontBytes familyName
                 | | url | ]; simpl.
  - rewrite loadBundledFont_run.
    destruct (loadFontUrl P url family weight); [|exact HI].
    now apply (inv_same_background w).
  - now apply inv_setBackground.
  - now apply inv_loadFont.
  - now apply (inv_same_background w).
  - rewrite loadSeparator_run.
    destruct (fetchImage P url); [|exact HI].
    now apply (inv_same_background w).
  - now apply inv_dispose.
Qed.

(** *** No URL is lost while every call succeeds *)

Lemma clean_run_op (P : Platform) (op : Op) (w w' : World) :
  Inv w -> Urls.unreleased (events w) = held (state w) ->
  run_op P op w = (Ok tt, w') ->
  Urls.unreleased (events w') = held (state w').
Proof.
  intros HI Hc.
  destruct op as [family url weight | canvasId bytes | fontBytes familyName
                 | | url | ]; simpl.
  - rewrite loadBundledFont_run.
    destruct (loadFontUrl P url family weight); [|discriminate].
    intros [= <-]. exact Hc.
  - destruct (elements w !! canvasId) as [canvas|] eqn:Hel.
    + destruct (decodeImage P bytes) as [d|] eqn:Hdec.
      * rewrite (setBackground_success P canvasId bytes w canvas d Hel Hdec).
        intros [= <-]. cbn [state events bgObjectUrl held].
        rewrite !unreleased_app, Hc. unfold held.
        destruct (bgObjectUrl (state w)) as [uA|] eqn:HuA; [|reflexivity].
        pose proof (inv_held_fresh w uA HI HuA). cbn.
        rewrite Nat.eqb_refl. cbn.
        destruct (Nat.eqb_spec uA (nextUrl w)); [lia | reflexivity].
      * rewrite (setBackground_no_decode P canvasId bytes w canvas Hel Hdec).
        discriminate.
    + rewrite (setBackground_no_canvas P canvasId bytes w Hel). discriminate.
  - destruct (loadFontBytes P fontBytes familyName) eqn:Hload.
    + rewrite (loadFont_success P fontBytes familyName w Hload).
      intros [= <-]. cbn [state events bgObjectUrl held].
      rewrite !unreleased_app. cbn.
      rewrite filter_snoc_self, filter_fresh; [exact Hc | apply HI].
    + rewrite (loadFont_no_load P fontBytes familyName w Hload).
      discriminate.
  - intros [= <-]. exact Hc.
  - rewrite loadSeparator_run. destruct (fetchImage P url); [|discriminate].
    intros [= <-]. exact Hc.
  - rewrite disposeBackground_run. intros [= <-].
    cbn [state events bgObjectUrl held].
    rewrite !unreleased_app, Hc. unfold held.
    destruct (bgObjectUrl (state w)) as [uA|]; cbn;
      [now rewrite Nat.eqb_refl | reflexivity].
Qed.

Lemma clean_run_checked (P : Platform) (ops : list Op) :
  forall w w', Inv w -> Urls.unreleased (events w) = held (state w) ->
    run_checked P ops w = Ok w' ->
    Urls.unreleased (events w') = held (state w').
Proof.
  induction ops as [|op ops IH]; intros w w' HI Hc; simpl.
  - now intros [= <-].
  - destruct (run_op P op w) as [[[]|msg] w1] eqn:Hop; [|discriminate].
    intros Hrest.
    apply (IH w1 w'); [| |exact Hrest].
    + replace w1 with (snd (run_op P op w)) by now rewrite Hop.
      now apply inv_run_op.
    + now apply (clean_run_op P op w w1).
Qed.

(** *** A lost URL stays lost *)

Lemma in_filter_other (u n : Url) (l : list Url) :
  In u l -> n <> u -> In u (List.filter (fun v => negb (Nat.eqb n v)) l).
Proof.
  intros Hin Hne. apply List.filter_In. split; [exact Hin|].
  destruct (Nat.eqb_spec n u); [contradiction | reflexivity].
Qed.

Lemma leaked_run_op (P : Platform) (op : Op) (u : Url) (w : World) :
  Leaked u w -> Leaked u (snd (run_op P op w)).
Proof.
  intros (Hin & Hne & Hlt).
  destruct op as [family url weight | canvasId bytes | fontBytes familyName
                 | | url | ]; simpl.
  - rewrite loadBundledFont_run.
    destruct (loadFontUrl P url family weight); now repeat split.
  - destruct (elements w !! canvasId) as [canvas|] eqn:Hel.
    + destruct (decodeImage P bytes) as [d|] eqn:Hdec.
      * rewrite (setBackground_success P canvasId bytes w canvas d Hel Hdec).
        cbn [snd]. unfold Leaked. cbn [state events nextUrl bgObjectUrl].
        split; [|split; [intros [= E]; lia | lia]].
        rewrite !unreleased_app.
        destruct (bgObjectUrl (state w)) as [uA|]; cbn.
        -- apply in_filter_other; [|congruence].
           apply in_or_app. now left.
        -- apply in_or_app. now left.
      * rewrite (setBackground_no_decode P canvasId bytes w canvas Hel Hdec).
        cbn [snd]. unfold Leaked. cbn [state events nextUrl].
        split; [|split; [exact Hne | lia]].
        rewrite unreleased_app. cbn. apply in_or_app. now left.
    + rewrite (setBackground_no_canvas P canvasId bytes w Hel).
      now repeat split.
  - destruct (loadFontBytes P fontBytes familyName) eqn:Hload.
    + rewrite (loadFont_success P fontBytes familyName w Hload).
      cbn [snd]. unfold Leaked. cbn [state events nextUrl bgObjectUrl].
      split; [|split; [exact Hne | lia]].
      rewrite !unreleased_app. cbn.
      apply in_filter_other; [|lia]. apply in_or_app. now left.
    + rewrite (loadFont_no_load P fontBytes familyName w Hload).
      cbn [snd]. unfold Leaked. cbn [state events nextUrl].
      split; [|split; [exact Hne | lia]].
      rewrite unreleased_app. cbn. apply in_or_app. now left.
  - now repeat split.
  - rewrite loadSeparator_run. destruct (fetchImage P url); now repeat split.
  - rewrite disposeBackground_run. cbn [snd]. unfold Leaked.
    cbn [state events nextUrl bgObjectUrl].
    split; [|split; [discriminate | exact Hlt]].
    rewrite !unreleased_app.
    destruct (bgObjectUrl (state w)) as [uA|]; cbn;
      [apply in_filter_other; [exact Hin | congruence] | exact Hin].
Qed.

Lemma leaked_run_ops (P : Platform) (ops : list Op) (u : Url) :
  forall w, Leaked u w -> Leaked u (run_ops P ops w).
Proof.
  induction ops as [|op ops IH]; intros w HL; [exact HL|].
  apply IH. now apply leaked_run_op.
Qed.

End SessionFacts.

Module WrapMore.
Import Str StrFacts Wrap WrapFacts.

Lemma paragraphs_some (t : jstring) :
  paragraphs (Some t) = split_lf (replace_crlf t).
Proof. reflexivity. Qed.

(** *** Trimming and splitting keep to the characters they are given *)

Lemma trimStart_suffix (s : jstring) : exists d, s = d ++ trimStart s.
Proof.
  induction s as [|c s [d IH]]; [now exists []|].
  simpl. destruct (is_ws c); [|now exists []].
  exists (c :: d). simpl. now rewrite <- IH.
Qed.

Lemma trimEnd_prefix (s : jstring) : trimEnd s `prefix_of` s.
Proof.
  unfold trimEnd. destruct (trimStart_suffix (rev s)) as [d Hd].
  exists (rev d). apply (f_equal (@rev N)) in Hd.
  now rewrite rev_involutive, rev_app_distr in Hd.
Qed.

Lemma Forall_trimStart (Q : N -> Prop) (s : jstring) :
  Forall Q s -> Forall Q (trimStart s).
Proof.
  intros H. destruct (trimStart_suffix s) as [d Hd].
  rewrite Hd in H. now apply Forall_app in H as [_ H].
Qed.

Lemma Forall_trimEnd (Q : N -> Prop) (s : jstring) :
  Forall Q s -> Forall Q (trimEnd s).
Proof.
  intros H. destruct (trimEnd_prefix s) as [k Hk].
  rewrite Hk in H. now apply Forall_app in H as [H _].
Qed.

Lemma Forall_split_ws (Q : N -> Prop) (s : jstring) :
  Forall Q s -> Forall (Forall Q) (split_ws s).
Proof.
  intros H. apply List.Forall_concat. now rewrite concat_split_ws.
Qed.

Lemma Forall_codePoints (Q : N -> Prop) (s : jstring) :
  Forall Q s -> Forall (Forall Q) (codePoints s).
Proof.
  intros H. apply List.Forall_concat. now rewrite concat_codePoints.
Qed.

Lemma in_replace_crlf (c : N) (s : jstring) :
  In c (replace_crlf s) -> In c s.
Proof.
  assert (H : forall n (t : jstring), (length t <= n)%nat ->
              In c (replace_crlf t) -> In c t).
  { induction n as [|n IH]; intros [|a [|b t]] Hlen; simpl in Hlen;
      try lia; try (intros H; exact H).
    change (replace_crlf (a :: b :: t))
      with (if ((a =? 13) && (b =? 10))%N then 10%N :: replace_crlf t
            else a :: replace_crlf (b :: t)).
    destruct ((a =? 13) && (b =? 10))%N eqn:E.
    - apply andb_true_iff in E as [_ Eb]. apply N.eqb_eq in Eb. subst b.
      intros [<-|H]; [right; now left|].
      right. right. apply IH; [lia | exact H].
    - intros [<-|H]; [now left|]. right. apply IH; [simpl; lia | exact H]. }
  apply (H (length s)). lia.
Qed.

Lemma split_lf_chars (s : jstring) :
  Forall (Forall (fun c => In c s /\ c <> 10%N)) (split_lf s).
Proof.
  induction s as [|a s IH]; [repeat constructor|].
  assert (IH' : Forall (Forall (fun c => In c (a :: s) /\ c <> 10%N))
                  (split_lf s)).
  { eapply List.Forall_impl; [|exact IH]. intros p.
    apply List.Forall_impl. intros c [Hc Hn]. split; [now right | exact Hn]. }
  simpl split_lf. destruct (N.eqb_spec a 10).
  - constructor; [constructor | exact IH'].
  - pose proof (split_lf_not_nil s) as Hne.
    destruct (split_lf s) as [|p ps]; [congruence|].
    inversion IH' as [|? ? Hp Hps]; subst.
    constructor; [|exact Hps].
    constructor; [split; [now left | assumption] | exact Hp].
Qed.

(** *** The tokens of a paragraph *)

Lemma split_ws_from_tokens (s : jstring) :
  forall b cur,
    Forall (fun c => is_ws c = b) cur ->
    Forall Text.homogeneous (split_ws_from b cur s).
Proof.
  assert (Hrev : forall b cur, Forall (fun c => is_ws c = b) cur ->
                   Text.homogeneous (rev cur)).
  { intros b cur H. apply List.Forall_rev in H.
    destruct b; [now left | now right]. }
  induction s as [|c s IH]; intros b cur Hcur.
  - simpl. destruct b.
    + constructor; [eauto|].
      constructor; [left; constructor | constructor].
    + constructor; [eauto | constructor].
  - simpl. destruct (is_ws c) eqn:Ec, b.
    + apply IH. now constructor.
    + constructor; [eauto|]. apply IH. now repeat constructor.
    + constructor; [eauto|]. apply IH. now repeat constructor.
    + apply IH. now constructor.
Qed.

Lemma split_ws_tokens (s : jstring) : Forall Text.homogeneous (split_ws s).
Proof. apply split_ws_from_tokens. constructor. Qed.

Lemma trimStart_all_ws (s : jstring) :
  Forall (fun c => is_ws c = true) s -> trimStart s = [].
Proof.
  induction 1 as [|c s Hc _ IH]; [reflexivity|]. simpl. now rewrite Hc.
Qed.

Lemma trimStart_token (x : jstring) :
  Text.homogeneous x -> trimStart x = [] \/ trimStart x = x.
Proof.
  intros [H|H].
  - left. now apply trimStart_all_ws.
  - right. destruct H as [|c s Hc _]; [reflexivity|]. simpl. now rewrite Hc.
Qed.

Section WithMeasure.

Variable measureText : jstring -> Q.
Variable maxWidth : Q.

Local Abbreviation fits := (fits measureText maxWidth).
Local Abbreviation greedy_step := (greedy_step measureText maxWidth).
Local Abbreviation paragraph_step := (paragraph_step measureText maxWidth).
Local Abbreviation line_step := (line_step measureText maxWidth).
Local Abbreviation wrapParagraphs := (wrapParagraphs measureText maxWidth).

(** The greedy loop keeps to the characters it is given. *)
Lemma greedy_chars (Q : N -> Prop) (start commit : jstring -> jstring) :
  (forall x, Forall Q x -> Forall Q (start x)) ->
  (forall x, Forall Q x -> Forall Q (commit x)) ->
  forall xs cur out,
    Forall (Forall Q) xs -> Forall Q cur -> Forall (Forall Q) out ->
    Forall Q (fst (fold_left (greedy_step start commit) xs (cur, out)))
    /\ Forall (Forall Q)
         (snd (fold_left (greedy_step start commit) xs (cur, out))).
Proof.
  intros Hstart Hcommit xs.
  induction xs as [|x xs IH]; intros cur out Hxs Hcur Hout; [now split|].
  inversion Hxs as [|? ? Hx Hxs']; subst.
  rewrite (greedy_cons measureText maxWidth).
  destruct (fits (cur ++ x) || is_empty cur).
  - apply IH; [assumption | apply Forall_app; now split | assumption].
  - apply IH; [assumption | now apply Hstart |].
    apply Forall_app. split; [assumption|].
    constructor; [now apply Hcommit | constructor].
Qed.

Lemma paragraph_step_chars (Q : N -> Prop) (p : jstring) :
  Q 32%N -> Forall Q p -> Forall (Forall Q) (paragraph_step [] p).
Proof.
  intros Hsp Hp. unfold Wrap.paragraph_step.
  destruct (is_empty p); [repeat constructor; exact Hsp|].
  rewrite (word_step_greedy measureText maxWidth).
  destruct (greedy_chars Q trimStart trimEnd (Forall_trimStart Q)
              (Forall_trimEnd Q) (split_ws p) [] []
              (Forall_split_ws Q p Hp) (List.Forall_nil _) (List.Forall_nil _))
    as [Hline Hout].
  destruct (fold_left (greedy_step trimStart trimEnd) (split_ws p) ([], []))
    as [line out]. simpl in *.
  destruct (negb (is_empty line)); [|exact Hout].
  apply Forall_app. split; [exact Hout|].
  constructor; [now apply Forall_trimEnd | constructor].
Qed.

Lemma line_step_chars (Q : N -> Prop) (l : jstring) :
  Forall Q l -> Forall (Forall Q) (line_step [] l).
Proof.
  intros Hl. unfold Wrap.line_step.
  destruct (fits l); [repeat constructor; exact Hl|].
  rewrite (char_step_greedy measureText maxWidth).
  destruct (greedy_chars Q (fun x => x) (fun x => x) (fun x H => H)
              (fun x H => H) (codePoints l) [] []
              (Forall_codePoints Q l Hl) (List.Forall_nil _) (List.Forall_nil _))
    as [Hbuf Hout].
  destruct (fold_left (greedy_step (fun x => x) (fun x => x))
              (codePoints l) ([], [])) as [buf out]. simpl in *.
  destruct (negb (is_empty buf)); [|exact Hout].
  apply Forall_app. split; [exact Hout | now repeat constructor].
Qed.

Lemma wrapParagraphs_chars (Q : N -> Prop) (raw : list jstring) :
  Q 32%N -> Forall (Forall Q) raw -> Forall (Forall Q) (wrapParagraphs raw).
Proof.
  intros Hsp Hraw. rewrite wrapParagraphs_flat.
  assert (H1 : Forall (Forall Q) (flat_map (paragraph_step []) raw)).
  { induction Hraw as [|p raw Hp _ IH]; [constructor|].
    simpl. apply Forall_app. split; [|exact IH].
    now apply paragraph_step_chars. }
  assert (H2 : Forall (Forall Q)
                 (flat_map (line_step [])
                    (flat_map (paragraph_step []) raw))).
  { induction H1 as [|l ls Hl _ IH]; [constructor|].
    simpl. apply Forall_app. split; [|exact IH].
    now apply line_step_chars. }
  induction H2 as [|l ls Hl _ IH]; [constructor|].
  simpl. constructor; [|exact IH].
  unfold blank_to_space. destruct (is_empty l); [|exact Hl].
  repeat constructor. exact Hsp.
Qed.

(** *** When everything fits *)

Lemma word_loop_all_fit (ws : list jstring) :
  forall line lines,
    (forall q, q `prefix_of` (line ++ concat ws) -> fits q = true) ->
    fold_left (greedy_step trimStart trimEnd) ws (line, lines)
    = (line ++ concat ws, lines).
Proof.
  induction ws as [|x ws IH]; intros line lines Hfit.
  - simpl. now rewrite app_nil_r.
  - rewrite (greedy_cons measureText maxWidth).
    rewrite (Hfit (line ++ x)).
    + cbn [orb]. rewrite IH.
      * simpl. now rewrite <- app_assoc.
      * intros q Hq. apply Hfit. simpl. now rewrite app_assoc.
    + exists (concat ws). simpl. now rewrite app_assoc.
Qed.

Lemma wrapParagraphs_one_fits (p : jstring) :
  (forall q, q `prefix_of` p -> fits q = true) ->
  wrapParagraphs [p] = [blank_to_space (trimEnd p)].
Proof.
  intros Hfit. destruct p as [|c p].
  - apply wrapParagraphs_blank.
  - unfold Wrap.wrapParagraphs. cbn [fold_left].
    unfold Wrap.paragraph_step at 1. cbn [is_empty].
    rewrite (word_step_greedy measureText maxWidth).
    rewrite word_loop_all_fit
      by (intros q Hq; apply Hfit; now rewrite concat_split_ws in Hq).
    rewrite concat_split_ws. cbn [app is_empty negb fold_left].
    unfold Wrap.line_step. rewrite (Hfit _ (trimEnd_prefix (c :: p))).
    reflexivity.
Qed.

(** *** Lines of the fallback pass are not empty *)

Lemma char_loop_not_nil (xs : list jstring) :
  forall buf out,
    Forall (fun x => x <> []) xs -> Forall (fun x => x <> []) out ->
    Forall (fun x => x <> [])
      (snd (fold_left (greedy_step (fun x => x) (fun x => x)) xs (buf, out))).
Proof.
  induction xs as [|x xs IH]; intros buf out Hxs Hout; [exact Hout|].
  inversion Hxs as [|? ? Hx Hxs']; subst.
  rewrite (greedy_cons measureText maxWidth).
  destruct (fits (buf ++ x) || is_empty buf) eqn:E.
  - now apply IH.
  - apply orb_false_iff in E as [_ E]. apply is_empty_false in E.
    apply IH; [assumption|]. apply Forall_app. split; [assumption|].
    now repeat constructor.
Qed.

Lemma line_step_lines_not_nil (l : jstring) :
  l <> [] -> Forall (fun x => x <> []) (line_step [] l).
Proof.
  intros Hl. unfold Wrap.line_step.
  destruct (fits l); [now repeat constructor|].
  rewrite (char_step_greedy measureText maxWidth).
  assert (Hcp : Forall (fun x : jstring => x <> []) (codePoints l)).
  { eapply List.Forall_impl; [|apply codePoints_single].
    intros x. apply single_char_not_nil. }
  pose proof (char_loop_not_nil (codePoints l) [] [] Hcp (List.Forall_nil _))
    as Hout.
  destruct (fold_left (greedy_step (fun x => x) (fun x => x))
              (codePoints l) ([], [])) as [buf out]. simpl in *.
  destruct (is_empty buf) eqn:Eb; simpl; [exact Hout|].
  apply is_empty_false in Eb. apply Forall_app. split; [exact Hout|].
  now repeat constructor.
Qed.

(** *** When every word fits *)

Section WordsFit.

Hypothesis fits_prefix :
  forall s q, q `prefix_of` s -> fits s = true -> fits q = true.
Hypothesis fits_nil : fits [] = true.

Lemma word_loop_fits (xs : list jstring) :
  forall cur out,
    Forall (fun x => Text.homogeneous x /\ fits x = true) xs ->
    fits cur = true -> Forall (fun l => fits l = true) out ->
    fits (fst (fold_left (greedy_step trimStart trimEnd) xs (cur, out)))
    = true
    /\ Forall (fun l => fits l = true)
         (snd (fold_left (greedy_step trimStart trimEnd) xs (cur, out))).
Proof.
  induction xs as [|x xs IH]; intros cur out Hxs Hcur Hout; [now split|].
  inversion Hxs as [|? ? [Hhom Hx] Hxs']; subst.
  rewrite (greedy_cons measureText maxWidth).
  destruct (fits (cur ++ x) || is_empty cur) eqn:E.
  - apply IH; [assumption | | assumption].
    apply orb_true_iff in E as [E|E]; [exact E|].
    apply is_empty_true in E. now subst cur.
  - apply IH; [assumption | |].
    + destruct (trimStart_token x Hhom) as [->| ->]; assumption.
    + apply Forall_app. split; [assumption|].
      constructor; [|constructor].
      apply (fits_prefix cur); [apply trimEnd_prefix | exact Hcur].
Qed.

Lemma paragraph_step_fits (p : jstring) :
  fits (js " ") = true ->
  Forall (fun tok => fits tok = true) (split_ws p) ->
  Forall (fun l => fits l = true) (paragraph_step [] p).
Proof.
  intros Hsp Htok. unfold Wrap.paragraph_step.
  destruct (is_empty p); [now repeat constructor|].
  rewrite (word_step_greedy measureText maxWidth).
  assert (Hxs : Forall (fun x => Text.homogeneous x /\ fits x = true)
                  (split_ws p)).
  { pose proof (split_ws_tokens p) as Hh.
    rewrite List.Forall_forall in *. intros x Hx. split; auto. }
  destruct (word_loop_fits (split_ws p) [] [] Hxs fits_nil
              (List.Forall_nil _)) as [Hline Hout].
  destruct (fold_left (greedy_step trimStart trimEnd) (split_ws p) ([], []))
    as [line out]. simpl in *.
  destruct (negb (is_empty line)); [|exact Hout].
  apply Forall_app. split; [exact Hout|].
  constructor; [|constructor].
  apply (fits_prefix line); [apply trimEnd_prefix | exact Hline].
Qed.

Lemma line_pass_fits (ls : list jstring) :
  Forall (fun l => fits l = true) ls -> flat_map (line_step []) ls = ls.
Proof.
  induction 1 as [|l ls Hl _ IH]; [reflexivity|].
  simpl. rewrite IH. unfold Wrap.line_step. now rewrite Hl.
Qed.

Lemma wrapParagraphs_words_fit (raw : list jstring) :
  fits (js " ") = true ->
  Forall (fun p => Forall (fun tok => fits tok = true) (split_ws p)) raw ->
  Forall (fun l => fits l = true) (wrapParagraphs raw)
  /\ wrapParagraphs raw
     = map blank_to_space (fold_left paragraph_step raw []).
Proof.
  intros Hsp Hraw.
  assert (H1 : Forall (fun l => fits l = true)
                 (flat_map (paragraph_step []) raw)).
  { induction Hraw as [|p raw Hp _ IH]; [constructor|].
    simpl. apply Forall_app. split; [|exact IH].
    now apply paragraph_step_fits. }
  rewrite wrapParagraphs_flat, (line_pass_fits _ H1).
  rewrite (fold_left_push paragraph_step
             (paragraph_step_push measureText maxWidth)).
  split; [|reflexivity].
  induction H1 as [|l ls Hl _ IH]; [constructor|].
  simpl. constructor; [|exact IH].
  unfold blank_to_space. now destruct (is_empty l).
Qed.

End WordsFit.

(** *** The fallback pass fills its lines *)

Lemma neighbours_nil {A : Type} (R : A -> A -> Prop) : Lines.neighbours R [].
Proof. intros a x y b H. destruct a; discriminate H. Qed.

Lemma neighbours_snoc {A : Type} (R : A -> A -> Prop) (ls : list A) (z : A) :
  Lines.neighbours R ls ->
  (forall x, last ls = Some x -> R x z) ->
  Lines.neighbours R (ls ++ [z]).
Proof.
  intros Hls Hlast a x y b H.
  destruct b as [|b0 b'] using rev_ind.
  - change (a ++ [x; y]) with (a ++ [x] ++ [y]) in H.
    rewrite app_assoc in H. apply app_inj_tail in H as [-> ->].
    apply Hlast. apply last_snoc.
  - clear IHb'.
    change (a ++ x :: y :: b' ++ [b0]) with (a ++ (x :: y :: b') ++ [b0]) in H.
    rewrite app_assoc in H. apply app_inj_tail in H as [-> _].
    now apply (Hls a x y b').
Qed.

Lemma full_before_grow (x y ch : jstring) :
  Lines.full_before measureText maxWidth x y ->
  Lines.full_before measureText maxWidth x (y ++ ch).
Proof.
  intros (c & rest & -> & Hc & Hfit).
  exists c, (rest ++ ch). now rewrite app_assoc.
Qed.

Lemma char_loop_full (xs : list jstring) :
  forall buf out,
    Forall single_char xs ->
    Lines.neighbours (Lines.full_before measureText maxWidth) out ->
    (forall x, last out = Some x ->
       Lines.full_before measureText maxWidth x buf) ->
    Lines.neighbours (Lines.full_before measureText maxWidth)
      (snd (fold_left (greedy_step (fun x => x) (fun x => x)) xs (buf, out)))
    /\ (forall x,
          last (snd (fold_left (greedy_step (fun x => x) (fun x => x)) xs
                       (buf, out))) = Some x ->
          Lines.full_before measureText maxWidth x
            (fst (fold_left (greedy_step (fun x => x) (fun x => x)) xs
                    (buf, out)))).
Proof.
  induction xs as [|c xs IH]; intros buf out Hxs Hout Hbuf; [now split|].
  inversion Hxs as [|? ? Hc Hxs']; subst.
  rewrite (greedy_cons measureText maxWidth).
  destruct (fits (buf ++ c) || is_empty buf) eqn:E.
  - apply IH; [assumption | assumption |].
    intros x Hx. apply full_before_grow. now apply Hbuf.
  - apply orb_false_iff in E as [E _].
    apply IH; [assumption | now apply neighbours_snoc |].
    intros x Hx. rewrite last_snoc in Hx. injection Hx as <-.
    exists c, []. now rewrite app_nil_r.
Qed.

End WithMeasure.

(** *** Line endings *)

Lemma to_crlf_head (s : jstring) :
  match Text.to_crlf s with
  | c :: _ => c <> 10%N
  | [] => True
  end.
Proof.
  destruct s as [|c s]; [exact I|]. simpl.
  destruct (N.eqb_spec c 10); [discriminate | assumption].
Qed.

Lemma replace_crlf_to_crlf (s : jstring) :
  replace_crlf (Text.to_crlf s) = s.
Proof.
  induction s as [|c s IH]; [reflexivity|].
  simpl Text.to_crlf. destruct (N.eqb_spec c 10) as [->|Hc].
  - change (replace_crlf (13 :: 10 :: Text.to_crlf s)%N)
      with (10%N :: replace_crlf (Text.to_crlf s)).
    now rewrite IH.
  - pose proof (to_crlf_head s) as Hhd.
    destruct (Text.to_crlf s) as [|d r] eqn:E.
    + simpl in IH. subst s. reflexivity.
    + change (replace_crlf (c :: d :: r))
        with (if ((c =? 13) && (d =? 10))%N then 10%N :: replace_crlf r
              else c :: replace_crlf (d :: r)).
      destruct (N.eqb_spec d 10); [contradiction|].
      rewrite andb_false_r. now rewrite IH.
Qed.

Lemma replace_crlf_no_cr (s : jstring) :
  ~ In 13%N s -> replace_crlf s = s.
Proof.
  induction s as [|c s IH]; intros Hno; [reflexivity|].
  destruct s as [|d s]; [reflexivity|].
  change (replace_crlf (c :: d :: s))
    with (if ((c =? 13) && (d =? 10))%N then 10%N :: replace_crlf s
          else c :: replace_crlf (d :: s)).
  destruct (N.eqb_spec c 13) as [->|Hc]; [exfalso; apply Hno; now left|].
  cbn [andb]. rewrite IH; [reflexivity|].
  intros H. apply Hno. now right.
Qed.

(** *** Text without whitespace *)

Lemma split_lf_no_lf (s : jstring) :
  ~ In 10%N s -> split_lf s = [s].
Proof.
  induction s as [|c s IH]; intros Hno; [reflexivity|].
  simpl. destruct (N.eqb_spec c 10) as [->|Hc];
    [exfalso; apply Hno; now left|].
  rewrite IH; [reflexivity|]. intros H. apply Hno. now right.
Qed.

Lemma split_ws_from_no_ws (cur s : jstring) :
  Forall (fun c => is_ws c = false) s ->
  split_ws_from false cur s = [rev cur ++ s].
Proof.
  revert cur. induction s as [|c s IH]; intros cur Hs.
  - simpl. now rewrite app_nil_r.
  - inversion Hs as [|? ? Hc Hs']; subst. simpl. rewrite Hc.
    rewrite IH by assumption. simpl. now rewrite <- app_assoc.
Qed.

Lemma trimStart_no_ws (s : jstring) :
  Forall (fun c => is_ws c = false) s -> trimStart s = s.
Proof. intros [|c s' Hc _]; [reflexivity|]. simpl. now rewrite Hc. Qed.

Lemma trimEnd_no_ws (s : jstring) :
  Forall (fun c => is_ws c = false) s -> trimEnd s = s.
Proof.
  intros H. unfold trimEnd.
  rewrite trimStart_no_ws; [apply rev_involutive|].
  now apply List.Forall_rev.
Qed.

Lemma no_ws_not_in (c : N) (s : jstring) :
  is_ws c = true -> Forall (fun c => is_ws c = false) s -> ~ In c s.
Proof.
  intros Hc Hs Hin. rewrite List.Forall_forall in Hs.
  apply Hs in Hin. congruence.
Qed.

End WrapMore.

(** * Further results *)

Section RendererMore.

Variable P : Platform.





(** X5.  The font sizes: a missing size is 56 for the name and 50 for the
    body, a number below 10 is raised to 10, a number from 10 on is kept,
    and the size NaN stays NaN. *)
Theorem font_sizes (o : Options) :
  (nameFontSize o = VUndefined \/ nameFontSize o = VNull ->
     Render.nameSize P o = Fin 56)
  /\ (bodyFontSize o = VUndefined \/ bodyFontSize o = VNull ->
       Render.bodySize P o = Fin 50)
  /\ (forall q, bodyFontSize o = VNum (Fin q) -> (q < 10)%Q ->
       Render.bodySize P o = Fin 10)
  /\ (forall q, bodyFontSize o = VNum (Fin q) -> (10 <= q)%Q ->
       Render.bodySize P o = Fin q)
  /\ (forall q, nameFontSize o = VNum (Fin q) -> (q < 10)%Q ->
       Render.nameSize P o = Fin 10)
  /\ (forall q, nameFontSize o = VNum (Fin q) -> (10 <= q)%Q ->
       Render.nameSize P o = Fin q)
  /\ (bodyFontSize o = VNum NaN -> Render.bodySize P o = NaN).
Proof.
  unfold Render.nameSize, Render.bodySize.
  repeat split.
  - intros [H|H]; now rewrite H.
  - intros [H|H]; now rewrite H.
  - intros q H Hq. rewrite H. simpl. unfold Num.max, Num.leb.
    destruct (Qle_bool 10 q) eqn:E; [|reflexivity].
    apply NumFacts.leb_true_le in E. lra.
  - intros q H Hq. rewrite H. simpl. unfold Num.max, Num.leb.
    destruct (Qle_bool 10 q) eqn:E; [reflexivity|].
    apply NumFacts.leb_false_lt in E. lra.
  - intros q H Hq. rewrite H. simpl. unfold Num.max, Num.leb.
    destruct (Qle_bool 10 q) eqn:E; [|reflexivity].
    apply NumFacts.leb_true_le in E. lra.
  - intros q H Hq. rewrite H. simpl. unfold Num.max, Num.leb.
    destruct (Qle_bool 10 q) eqn:E; [reflexivity|].
    apply NumFacts.leb_false_lt in E. lra.
  - intros H. now rewrite H.
Qed.

(** X6.  Without [withShadow], every shadow offset [render] assigns is 0
    and every shadow colour it assigns is transparent. *)
Theorem render_no_shadow (w : World) (canvasId : jstring) (o : Options)
    (ops : list DrawOp) :
  Val.truthy (withShadow o) = false ->
  Render.render P w canvasId o = Ok ops ->
  Forall (fun v => v = Fin 0) (Render.shadow_offsets ops)
  /\ (forall c, In (SetShadowColor c) ops -> c = js "transparent").
Proof.
  intros Hs. unfold Render.render.
  destruct (elements w !! canvasId) as [canvas|]; [|discriminate].
  destruct (has2d canvas); [|discriminate]. cbn [negb].
  destruct (bgImg (state w)) as [bg|]; intros [= <-].
  - assert (Hsh : Render.applyShadow P o
                  = [SetShadowColor (js "transparent"); SetShadowBlur (Fin 0);
                     SetShadowOffsetX (Fin 0); SetShadowOffsetY (Fin 0)]).
    { unfold Render.applyShadow. now rewrite Hs. }
    set (cw := cv_width canvas). set (ch := cv_height canvas).
    split.
    + change (Forall (fun v => v = Fin 0)
                (Render.shadow_offsets
                   (Render.name_ops P (state w) cw ch o
                    ++ Render.line_ops P (state w) cw ch o
                    ++ Render.body_ops P (state w) cw ch o))).
      rewrite !RenderFacts.shadow_offsets_app,
        RenderFacts.shadow_offsets_line.
      unfold Render.name_ops, Render.body_ops. rewrite Hsh.
      rewrite !RenderFacts.shadow_offsets_app,
        RenderFacts.shadow_offsets_fill.
      destruct (Val.truthy (showName o)); repeat constructor.
    + intros c Hc.
      assert (Hc' : In (SetShadowColor c)
                      (Render.name_ops P (state w) cw ch o
                       ++ Render.line_ops P (state w) cw ch o
                       ++ Render.body_ops P (state w) cw ch o)).
      { simpl in Hc.
        destruct Hc as [H|[H|[H|[H|[H|H]]]]]; try discriminate H.
        exact H. }
      apply in_app_or in Hc' as [H|H]; [|apply in_app_or in H as [H|H]].
      * unfold Render.name_ops in H. rewrite Hsh in H.
        destruct (Val.truthy (showName o)); simpl in H;
          intuition congruence.
      * unfold Render.line_ops in H.
        destruct (separatorImg (state w)); [|contradiction].
        destruct (Val.truthy (showLine o)); simpl in H;
          intuition congruence.
      * unfold Render.body_ops in H. rewrite Hsh in H.
        apply in_app_or in H as [H|H]; [simpl in H; intuition congruence|].
        apply in_app_or in H as [H|H]; [simpl in H; intuition congruence|].
        pose proof (RenderFacts.fill_lines_text
                      (Render.pixel cw (Render.body_x01 P o))
                      (Render.pixel ch (Render.body_y01 P o))
                      (Num.round (Num.mul (Render.bodySize P o)
                                    (Fin (23 # 20))))
                      (Render.body_lines P (state w) cw o) 0) as Hall.
        rewrite List.Forall_forall in Hall.
        destruct (Hall _ H) as (l & a & b & Heq). discriminate Heq.
  - split; [constructor|]. intros c [H|[]]. discriminate H.
Qed.

(** X7.  The font family [render] selects is never the empty string: the
    custom family when [useCustomFont] is set and a custom font with a name
    is registered, else the bundled family when it has a name, else
    "sans-serif".  After [clearCustomFont] the selection no longer depends
    on [useCustomFont]. *)
Theorem font_family_selection (w : World) (o : Options) :
  Render.family (state w) o <> []
  /\ (Render.family (state w) o = default [] (customFontFamily (state w))
      \/ Render.family (state w) o = default [] (fontFamily (state w))
      \/ Render.family (state w) o = js "sans-serif")
  /\ fst (Loader.clearCustomFont w) = Ok tt
  /\ Render.family (state (snd (Loader.clearCustomFont w))) o
     = (if Render.truthy_str (fontFamily (state w))
        then default [] (fontFamily (state w))
        else js "sans-serif").
Proof.
  unfold Render.family.
  split; [|split; [|split; [reflexivity|]]].
  - destruct (Val.truthy (useCustomFont o)); cbn [andb].
    + destruct (customFontFamily (state w)) as [[|c s]|]; cbn;
        try discriminate;
        destruct (fontFamily (state w)) as [[|d t]|]; cbn; discriminate.
    + destruct (fontFamily (state w)) as [[|d t]|]; cbn; discriminate.
  - destruct (Val.truthy (useCustomFont o)
              && Render.truthy_str (customFontFamily (state w)));
      [now left|].
    destruct (Render.truthy_str (fontFamily (state w)));
      [right; now left | right; now right].
  - cbn. now rewrite andb_false_r.
Qed.

End RendererMore.

Section SessionsMore.

Variable P : Platform.

(** X8.  Whatever the host calls, in whatever order and whether the calls
    succeed or throw, between calls: the handle in [_state.bgObjectUrl] is
    the one background handle not released, the browser still knows it, the
    background image is present exactly when the handle is and was read
    from that handle, and every URL still known is older than the next
    one. *)
Theorem session_invariant (els : gmap (list N) Canvas)
    (ops : list Session.Op) :
  Session.Inv (Session.run_ops P ops (initial_world els)).
Proof.
  assert (H : forall w, Session.Inv w ->
                Session.Inv (Session.run_ops P ops w)).
  { induction ops as [|op ops IH]; intros w HI; [exact HI|].
    apply IH. now apply SessionFacts.inv_run_op. }
  apply H, SessionFacts.inv_initial.
Qed.

(** X9.  As long as no call throws, the module leaves no object URL behind:
    after the session the only URL not released is the handle of the
    current background, if there is one. *)
Theorem session_without_failure_keeps_no_url (els : gmap (list N) Canvas)
    (ops : list Session.Op) (w : World) :
  Session.run_checked P ops (initial_world els) = Ok w ->
  Urls.unreleased (events w) = Session.held (state w).
Proof.
  apply SessionFacts.clean_run_checked;
    [apply SessionFacts.inv_initial | reflexivity].
Qed.

(** X10.  A background load that fails: without the canvas it throws before
    anything happens, the world is untouched.  With the canvas but bytes
    that do not decode it throws "failed to load image", [_state] and the
    canvases are as before, and the object URL it created is never
    released, whatever the host calls afterwards. *)
Theorem failed_background_load (w : World) (canvasId : jstring)
    (bytes : list Byte.byte) :
  decodeImage P bytes = None ->
  (forall u, bgObjectUrl (state w) = Some u -> u < nextUrl w) ->
  match elements w !! canvasId with
  | None =>
      Loader.setBackgroundImageFromBytes P canvasId bytes w
      = (Throw (js "canvas not found"), w)
  | Some _ =>
      exists w',
        Loader.setBackgroundImageFromBytes P canvasId bytes w
        = (Throw (js "failed to load image"), w')
        /\ state w' = state w
        /\ elements w' = elements w
        /\ forall ops : list Session.Op,
             In (nextUrl w)
               (Urls.unreleased (events (Session.run_ops P ops w')))
  end.
Proof.
  intros Hdec Hfresh.
  destruct (elements w !! canvasId) as [canvas|] eqn:Hel.
  - rewrite (SessionFacts.setBackground_no_decode P canvasId bytes w canvas
               Hel Hdec).
    eexists. split; [reflexivity|].
    split; [reflexivity|]. split; [reflexivity|].
    intros ops. apply SessionFacts.leaked_run_ops.
    split; [|split]; cbn [state events nextUrl].
    + rewrite SessionFacts.unreleased_app. cbn.
      apply in_or_app. right. now left.
    + intros Hu. apply Hfresh in Hu. lia.
    + lia.
  - now apply SessionFacts.setBackground_no_canvas.
Qed.

(** X11.  A font load that fails throws, leaves [_state] and the registered
    fonts as they were, and never releases the object URL it created,
    whatever the host calls afterwards. *)
Theorem failed_font_load (w : World) (fontBytes : list Byte.byte)
    (familyName : jstring) :
  loadFontBytes P fontBytes familyName = false ->
  (forall u, bgObjectUrl (state w) = Some u -> u < nextUrl w) ->
  exists (msg : jstring) (w' : World),
    Loader.loadFontFromBytes P fontBytes familyName w = (Throw msg, w')
    /\ state w' = state w
    /\ fonts w' = fonts w
    /\ forall ops : list Session.Op,
         In (nextUrl w)
           (Urls.unreleased (events (Session.run_ops P ops w'))).
Proof.
  intros Hload Hfresh.
  rewrite (SessionFacts.loadFont_no_load P fontBytes familyName w Hload).
  eexists. eexists. split; [reflexivity|].
  split; [reflexivity|]. split; [reflexivity|].
  intros ops. apply SessionFacts.leaked_run_ops.
  split; [|split]; cbn [state events nextUrl].
  - rewrite SessionFacts.unreleased_app. cbn.
    apply in_or_app. right. now left.
  - intros Hu. apply Hfresh in Hu. lia.
  - lia.
Qed.

(** X12.  A successful background load releases the handle [_state] held,
    if any, and no other; it resizes the named canvas and no other, keeps
    whether that canvas has a context, and leaves the font and separator
    fields and the registered fonts alone. *)
Theorem successful_background_load (w : World) (canvasId : jstring)
    (bytes : list Byte.byte) (canvas : Canvas) (d : ImageDims) :
  elements w !! canvasId = Some canvas ->
  decodeImage P bytes = Some d ->
  exists w',
    Loader.setBackgroundImageFromBytes P canvasId bytes w = (Ok tt, w')
    /\ Log.revoked (events w')
       = Log.revoked (events w) ++ Session.held (state w)
    /\ (forall other, other <> canvasId ->
          elements w' !! other = elements w !! other)
    /\ (exists canvas', elements w' !! canvasId = Some canvas'
                        /\ has2d canvas' = has2d canvas)
    /\ fontFamily (state w') = fontFamily (state w)
    /\ customFontFamily (state w') = customFontFamily (state w)
    /\ separatorImg (state w') = separatorImg (state w)
    /\ fontLoaded (state w') = fontLoaded (state w)
    /\ fonts w' = fonts w.
Proof.
  intros Hel Hdec.
  rewrite (LoaderFacts.setBackground_success P canvasId bytes w canvas d
             Hel Hdec).
  eexists. split; [reflexivity|].
  cbn [state events elements fonts fontFamily customFontFamily separatorImg
       fontLoaded].
  split.
  { rewrite !LoaderFacts.revoked_app. unfold Session.held.
    destruct (bgObjectUrl (state w)); cbn; now rewrite ?app_nil_r. }
  split.
  { intros other Hne. now apply lookup_insert_ne. }
  split.
  { eexists. split; [apply lookup_insert_eq | reflexivity]. }
  repeat split.
Qed.

(** X13.  After a successful background load, [render] on the same canvas
    clears it and draws the new image over exactly its natural size, so the
    picture is neither scaled nor cropped. *)
Theorem background_then_render (w : World) (canvasId : jstring)
    (bytes : list Byte.byte) (canvas : Canvas) (d : ImageDims)
    (o : Options) :
  elements w !! canvasId = Some canvas -> has2d canvas = true ->
  decodeImage P bytes = Some d ->
  detached (mkImage (SrcBlob (nextUrl w)) d) ->
  exists (ops rest : list DrawOp) (imgB : Image),
    Render.render P
      (snd (Loader.setBackgroundImageFromBytes P canvasId bytes w))
      canvasId o = Ok ops
    /\ imgB = mkImage (SrcBlob (nextUrl w)) d
    /\ ops = ClearRect (Fin 0) (Fin 0) (Num.of_N (naturalWidth imgB))
               (Num.of_N (naturalHeight imgB))
             :: DrawImage imgB (Fin 0) (Fin 0)
                  (Num.of_N (naturalWidth imgB))
                  (Num.of_N (naturalHeight imgB))
             :: rest.
Proof.
  intros Hel H2d Hdec [Hw Hh]. simpl in Hw, Hh.
  rewrite (LoaderFacts.setBackground_success P canvasId bytes w canvas d
             Hel Hdec).
  cbn [snd].
  erewrite TraceFacts.render_drawing;
    [| cbn [elements]; apply lookup_insert_eq | exact H2d | reflexivity].
  cbn [cv_width cv_height].
  rewrite (LoaderFacts.or_else_detached _ _ Hw),
    (LoaderFacts.or_else_detached _ _ Hh).
  eexists. eexists. eexists. split; [reflexivity|].
  split; reflexivity.
Qed.

(** X14.  After [disposeBackground], [render] only clears the canvas, which
    keeps the size the disposed image gave it. *)
Theorem dispose_then_render (w : World) (canvasId : jstring)
    (canvas : Canvas) (o : Options) :
  elements w !! canvasId = Some canvas -> has2d canvas = true ->
  Render.render P (snd (Loader.disposeBackground w)) canvasId o
  = Ok [ClearRect (Fin 0) (Fin 0) (Num.of_N (cv_width canvas))
          (Num.of_N (cv_height canvas))].
Proof.
  intros Hel H2d. rewrite LoaderFacts.disposeBackground_run. cbn [snd].
  unfold Render.render. cbn [elements state bgImg].
  now rewrite Hel, H2d.
Qed.

(** X15.  A successful font load registers the font, stores its family name
    as the custom family and changes no other field; the object URL it
    created is released again, so the URLs not released are those of
    before.  [render] then selects that family when [useCustomFont] is set,
    unless the name is the empty string. *)
Theorem successful_font_load (w : World) (fontBytes : list Byte.byte)
    (familyName : jstring) (o : Options) :
  loadFontBytes P fontBytes familyName = true ->
  Forall (fun u => u < nextUrl w) (Urls.unreleased (events w)) ->
  exists w',
    Loader.loadFontFromBytes P fontBytes familyName w = (Ok tt, w')
    /\ customFontFamily (state w') = Some familyName
    /\ bgImg (state w') = bgImg (state w)
    /\ bgObjectUrl (state w') = bgObjectUrl (state w)
    /\ fontFamily (state w') = fontFamily (state w)
    /\ separatorImg (state w') = separatorImg (state w)
    /\ elements w' = elements w
    /\ fonts w' = fonts w ++ [familyName]
    /\ Urls.unreleased (events w') = Urls.unreleased (events w)
    /\ (Val.truthy (useCustomFont o) = true -> familyName <> [] ->
        Render.family (state w') o = familyName)
    /\ (familyName = [] ->
        Render.family (state w') o
        = Render.family (state (snd (Loader.clearCustomFont w))) o).
Proof.
  intros Hload Hfresh.
  rewrite (SessionFacts.loadFont_success P fontBytes familyName w Hload).
  eexists. split; [reflexivity|].
  cbn [state events elements fonts bgImg bgObjectUrl fontFamily
       customFontFamily separatorImg].
  do 7 (split; [reflexivity|]).
  split.
  { rewrite !SessionFacts.unreleased_app. cbn.
    now rewrite SessionFacts.filter_snoc_self, SessionFacts.filter_fresh. }
  split.
  - intros Hu Hne. unfold Render.family. cbn. rewrite Hu.
    destruct familyName; [congruence | reflexivity].
  - intros ->. unfold Render.family. cbn. now rewrite !andb_false_r.
Qed.

(** X16.  [loadBundledFont]: when the font does not load it throws and the
    world is untouched; when it loads, the family is registered and stored
    as the bundled family, nothing else of [_state] but [fontLoaded]
    changes, and [render] selects it whenever it is not the empty string
    and the custom font is not in use. *)
Theorem bundled_font_load (w : World) (family url : jstring)
    (weight : jsval) (o : Options) :
  (loadFontUrl P url family weight = false ->
     exists msg, Loader.loadBundledFont P family url weight w
                 = (Throw msg, w))
  /\ (loadFontUrl P url family weight = true ->
      exists w',
        Loader.loadBundledFont P family url weight w = (Ok tt, w')
        /\ fontFamily (state w') = Some family
        /\ fontLoaded (state w') = Some true
        /\ bgImg (state w') = bgImg (state w)
        /\ bgObjectUrl (state w') = bgObjectUrl (state w)
        /\ customFontFamily (state w') = customFontFamily (state w)
        /\ separatorImg (state w') = separatorImg (state w)
        /\ fonts w' = fonts w ++ [family]
        /\ events w' = events w
        /\ (family <> [] ->
            Val.truthy (useCustomFont o)
            && Render.truthy_str (customFontFamily (state w)) = false ->
            Render.family (state w') o = family)).
Proof.
  rewrite SessionFacts.loadBundledFont_run.
  split; intros ->; [eauto|].
  eexists. split; [reflexivity|].
  cbn [state events fonts bgImg bgObjectUrl fontFamily customFontFamily
       separatorImg fontLoaded].
  do 8 (split; [reflexivity|]).
  intros Hne Hc. unfold Render.family. cbn [customFontFamily fontFamily].
  rewrite Hc. destruct family; [congruence | reflexivity].
Qed.

(** X17.  Every call keeps to its own fields, whether it succeeds or
    throws: only a background load or a disposal changes the background
    image or its handle; only a font load or [clearCustomFont] changes the
    custom family; only [loadBundledFont] changes the bundled family and
    [fontLoaded]; only [loadSeparatorImage] changes the separator; only a
    background load changes a canvas. *)
Theorem calls_keep_to_their_fields (op : Session.Op) (w : World) :
  let w' := snd (Session.run_op P op w) in
  (match op with
   | Session.OpSetBackground _ _ | Session.OpDisposeBackground => True
   | _ => bgImg (state w') = bgImg (state w)
          /\ bgObjectUrl (state w') = bgObjectUrl (state w)
   end)
  /\ (match op with
      | Session.OpLoadFont _ _ | Session.OpClearCustomFont => True
      | _ => customFontFamily (state w') = customFontFamily (state w)
      end)
  /\ (match op with
      | Session.OpLoadBundledFont _ _ _ => True
      | _ => fontFamily (state w') = fontFamily (state w)
             /\ fontLoaded (state w') = fontLoaded (state w)
      end)
  /\ (match op with
      | Session.OpLoadSeparator _ => True
      | _ => separatorImg (state w') = separatorImg (state w)
      end)
  /\ (match op with
      | Session.OpSetBackground _ _ => True
      | _ => elements w' = elements w
      end).
Proof.
  destruct op as [family url weight | canvasId bytes | fontBytes familyName
                 | | url | ]; cbn zeta; cbn [Session.run_op].
  - rewrite SessionFacts.loadBundledFont_run.
    destruct (loadFontUrl P url family weight); cbn; tauto.
  - destruct (elements w !! canvasId) as [canvas|] eqn:Hel.
    + destruct (decodeImage P bytes) as [d|] eqn:Hdec.
      * rewrite (LoaderFacts.setBackground_success P canvasId bytes w canvas
                   d Hel Hdec). cbn. tauto.
      * rewrite (SessionFacts.setBackground_no_decode P canvasId bytes w
                   canvas Hel Hdec). cbn. tauto.
    + rewrite (SessionFacts.setBackground_no_canvas P canvasId bytes w Hel).
      cbn. tauto.
  - destruct (loadFontBytes P fontBytes familyName) eqn:Hload.
    + rewrite (SessionFacts.loadFont_success P fontBytes familyName w Hload).
      cbn. tauto.
    + rewrite (SessionFacts.loadFont_no_load P fontBytes familyName w Hload).
      cbn. tauto.
  - cbn. tauto.
  - rewrite SessionFacts.loadSeparator_run.
    destruct (fetchImage P url); cbn; tauto.
  - rewrite LoaderFacts.disposeBackground_run. cbn. tauto.
Qed.

End SessionsMore.

Section ExporterMore.

(** X18.  [downloadPng]: without the canvas it throws and nothing happens;
    when the browser calls back with no blob it returns silently, nothing
    is created and nothing is downloaded; otherwise it triggers one
    download from a fresh object URL under the given file name, or under
    "image.png" when the name is missing or empty, and once its timer has
    fired that URL is released again while [_state] was never touched. *)
Theorem download_cycle (w : World) (canvasId : jstring)
    (filename : option jstring) (blob : bool) :
  Forall (fun u => u < nextUrl w) (Urls.unreleased (events w)) ->
  match elements w !! canvasId with
  | None =>
      Exporter.downloadPng blob canvasId filename w
      = (Throw (js "canvas not found"), w)
  | Some _ =>
      if blob then
        exists (d : Exporter.Download) (w1 w2 : World),
          Exporter.downloadPng blob canvasId filename w = (Ok (Some d), w1)
          /\ Exporter.dl_href d = nextUrl w
          /\ (filename = None \/ filename = Some [] ->
              Exporter.dl_name d = js "image.png")
          /\ (forall name, filename = Some name -> name <> [] ->
              Exporter.dl_name d = name)
          /\ Urls.unreleased (events w1)
             = Urls.unreleased (events w) ++ [nextUrl w]
          /\ Exporter.downloadPng_timer d w1 = (Ok tt, w2)
          /\ Urls.unreleased (events w2) = Urls.unreleased (events w)
          /\ state w1 = state w /\ state w2 = state w
          /\ elements w2 = elements w
      else
        Exporter.downloadPng blob canvasId filename w = (Ok None, w)
  end.
Proof.
  intros Hfresh. unfold Exporter.downloadPng.
  unfold mbind, M_bind, Eff.bind, Dom.getElementById.
  destruct (elements w !! canvasId) as [canvas|]; [|reflexivity].
  destruct blob; [|reflexivity]. cbn.
  eexists. eexists. eexists. split; [reflexivity|].
  cbn [Exporter.dl_href Exporter.dl_name events state elements].
  split; [reflexivity|].
  split; [intros [->| ->]; reflexivity|].
  split.
  { intros name -> Hne. unfold Exporter.download_name. cbn.
    destruct name; [congruence | reflexivity]. }
  split; [now rewrite SessionFacts.unreleased_app|].
  split; [reflexivity|]. cbn [events state elements].
  split; [|repeat split].
  rewrite !SessionFacts.unreleased_app. cbn.
  now rewrite SessionFacts.filter_snoc_self, SessionFacts.filter_fresh.
Qed.

End ExporterMore.

Section LineWrapperMore.

Variable measureText : jstring -> Q.
Variable maxWidth : Q.

(** X19.  When every paragraph of the text fits the width, and so does each
    of its beginnings, [wrapLines] returns one line per paragraph: the
    paragraph without its trailing whitespace, or a single space when
    nothing is left of it. *)
Theorem wrapLines_when_everything_fits (text : option jstring) :
  (forall p, In p (Wrap.paragraphs text) ->
     forall q, q `prefix_of` p -> (measureText q <= maxWidth)%Q) ->
  Wrap.wrapLines measureText maxWidth text
  = map (fun p => Wrap.blank_to_space (Str.trimEnd p))
      (Wrap.paragraphs text).
Proof.
  unfold Wrap.wrapLines. intros Hfit.
  rewrite WrapFacts.wrapParagraphs_concat.
  induction (Wrap.paragraphs text) as [|p ps IH]; [reflexivity|].
  simpl. rewrite IH by (intros p' Hp'; apply Hfit; now right).
  rewrite WrapMore.wrapParagraphs_one_fits; [reflexivity|].
  intros q Hq. apply Qle_bool_iff. apply (Hfit p); [now left | exact Hq].
Qed.

(** X20.  [wrapLines] invents no character: every character of a returned
    line is a character of the text or a space, and none is a line feed. *)
Theorem wrapLines_characters (text : jstring) :
  Forall (Forall (fun c => (c = 32%N \/ In c text) /\ c <> 10%N))
    (Wrap.wrapLines measureText maxWidth (Some text)).
Proof.
  unfold Wrap.wrapLines.
  apply WrapMore.wrapParagraphs_chars; [split; [now left | discriminate]|].
  unfold Wrap.paragraphs. cbn [default].
  eapply List.Forall_impl; [|apply WrapMore.split_lf_chars].
  intros p. apply List.Forall_impl. intros c [Hc Hn].
  split; [right; now apply WrapMore.in_replace_crlf | exact Hn].
Qed.

(** X21.  When the empty string fits the width, no paragraph is swallowed:
    the text has at least one paragraph and [wrapLines] returns at least as
    many lines as there are paragraphs. *)
Theorem wrapLines_line_count (text : option jstring) :
  (measureText [] <= maxWidth)%Q ->
  (1 <= length (Wrap.paragraphs text)
   <= length (Wrap.wrapLines measureText maxWidth text))%nat.
Proof.
  intros Hfit. assert (E : Wrap.fits measureText maxWidth [] = true)
    by now apply Qle_bool_iff.
  split.
  - unfold Wrap.paragraphs.
    pose proof (StrFacts.split_lf_not_nil
                  (Str.replace_crlf (default [] text))) as Hne.
    destruct (Str.split_lf _); [congruence | simpl; lia].
  - unfold Wrap.wrapLines. rewrite WrapFacts.wrapParagraphs_concat.
    induction (Wrap.paragraphs text) as [|p ps IH]; [simpl; lia|].
    simpl. rewrite length_app.
    destruct (WrapFacts.wrapParagraphs_one_not_nil measureText maxWidth p)
      as [Hne|Hlt].
    + destruct (Wrap.wrapParagraphs measureText maxWidth [p]);
        [congruence | simpl; lia].
    + exfalso. apply Qle_bool_iff in E. lra.
Qed.

(** X22.  Line endings: replacing CR LF by LF undoes writing every LF as
    CR LF, and a text without carriage returns is wrapped the same way
    whether its lines end in LF or in CR LF. *)
Theorem wrapLines_line_endings :
  (forall t : jstring, Str.replace_crlf (Text.to_crlf t) = t)
  /\ (forall t : jstring, ~ In 13%N t ->
        Wrap.wrapLines measureText maxWidth (Some (Text.to_crlf t))
        = Wrap.wrapLines measureText maxWidth (Some t)).
Proof.
  split; [apply WrapMore.replace_crlf_to_crlf|].
  intros t Hno. unfold Wrap.wrapLines.
  rewrite !WrapMore.paragraphs_some.
  now rewrite WrapMore.replace_crlf_to_crlf, WrapMore.replace_crlf_no_cr.
Qed.

(** X23.  A text without any whitespace, as of a script written without
    spaces, is one paragraph, and [wrapLines] cuts it into non-empty pieces
    that put together give the text back, character for character. *)
Theorem wrapLines_without_whitespace (text : jstring) :
  text <> [] ->
  Forall (fun c => Str.is_ws c = false) text ->
  Wrap.paragraphs (Some text) = [text]
  /\ concat (Wrap.wrapLines measureText maxWidth (Some text)) = text
  /\ Wrap.wrapLines measureText maxWidth (Some text)
     = Wrap.line_step measureText maxWidth [] text.
Proof.
  intros Hne Hws.
  assert (Hpar : Wrap.paragraphs (Some text) = [text]).
  { rewrite WrapMore.paragraphs_some.
    rewrite WrapMore.replace_crlf_no_cr
      by (now apply WrapMore.no_ws_not_in).
    apply WrapMore.split_lf_no_lf. now apply WrapMore.no_ws_not_in. }
  assert (Hlines : Wrap.wrapLines measureText maxWidth (Some text)
                   = Wrap.line_step measureText maxWidth [] text).
  { unfold Wrap.wrapLines. rewrite Hpar.
    unfold Wrap.wrapParagraphs. cbn [fold_left].
    unfold Wrap.paragraph_step at 1.
    destruct text as [|c t]; [congruence|]. cbn [Str.is_empty].
    unfold Str.split_ws.
    rewrite WrapMore.split_ws_from_no_ws by assumption.
    cbn [rev app fold_left]. unfold Wrap.word_step at 1.
    cbn [Str.is_empty app orb]. rewrite orb_true_r.
    cbn [negb Str.is_empty]. rewrite WrapMore.trimEnd_no_ws by assumption.
    cbn [app fold_left].
    pose proof (WrapMore.line_step_lines_not_nil measureText maxWidth
                  (c :: t) Hne) as Hnn.
    revert Hnn.
    generalize (Wrap.line_step measureText maxWidth [] (c :: t)).
    intros ls Hnn.
    induction Hnn as [|l ls Hl _ IH]; [reflexivity|].
    simpl. rewrite IH. unfold Wrap.blank_to_space.
    destruct l; [congruence | reflexivity]. }
  split; [exact Hpar|]. split; [|exact Hlines].
  rewrite Hlines. apply WrapFacts.line_step_content.
Qed.

(** X24.  The fallback pass fills its lines: of two pieces of an over-wide
    line that follow one another, the first could not have taken the first
    character of the second, with it the piece no longer fits. *)
Theorem fallback_lines_are_full (l : jstring) :
  Lines.neighbours (Lines.full_before measureText maxWidth)
    (Wrap.line_step measureText maxWidth [] l).
Proof.
  unfold Wrap.line_step. destruct (Wrap.fits measureText maxWidth l).
  - intros a x y b H. destruct a as [|? [|? ?]]; discriminate H.
  - rewrite (WrapFacts.char_step_greedy measureText maxWidth).
    destruct (WrapMore.char_loop_full measureText maxWidth
                (Str.codePoints l) [] [] (StrFacts.codePoints_single l)
                (WrapMore.neighbours_nil _)) as [Hout Hbuf]; [discriminate|].
    destruct (fold_left _ (Str.codePoints l) ([], [])) as [buf out].
    simpl in *.
    destruct (negb (Str.is_empty buf)); [|exact Hout].
    now apply WrapMore.neighbours_snoc.
Qed.

(** X25.  When a string that fits still fits once cut short, a space fits,
    and every word and every run of spaces of the text fits on its own,
    then no returned line overflows and no word is broken: the fallback
    pass changes nothing, the lines are those of the word pass. *)
Theorem words_are_not_broken (text : option jstring) :
  (forall s q, q `prefix_of` s ->
     (measureText s <= maxWidth)%Q -> (measureText q <= maxWidth)%Q) ->
  (measureText (js " ") <= maxWidth)%Q ->
  (forall p, In p (Wrap.paragraphs text) ->
     forall tok, In tok (Str.split_ws p) ->
       (measureText tok <= maxWidth)%Q) ->
  Forall (fun l => (measureText l <= maxWidth)%Q)
    (Wrap.wrapLines measureText maxWidth text)
  /\ Wrap.wrapLines measureText maxWidth text
     = map Wrap.blank_to_space
         (fold_left (Wrap.paragraph_step measureText maxWidth)
            (Wrap.paragraphs text) []).
Proof.
  intros Hclosed Hsp Htok.
  assert (Hp : forall s q, q `prefix_of` s ->
                 Wrap.fits measureText maxWidth s = true ->
                 Wrap.fits measureText maxWidth q = true).
  { intros s q Hq Hs. apply Qle_bool_iff.
    apply (Hclosed s q Hq). now apply Qle_bool_iff. }
  assert (Hs : Wrap.fits measureText maxWidth (js " ") = true)
    by now apply Qle_bool_iff.
  assert (Hn : Wrap.fits measureText maxWidth [] = true).
  { apply (Hp (js " ")); [now exists (js " ") | exact Hs]. }
  destruct (WrapMore.wrapParagraphs_words_fit measureText maxWidth Hp Hn
              (Wrap.paragraphs text) Hs) as [Hall Heq].
  - apply List.Forall_forall. intros p Hin.
    apply List.Forall_forall. intros tok Htk.
    apply Qle_bool_iff. now apply (Htok p).
  - split; [|exact Heq].
    eapply List.Forall_impl; [|exact Hall].
    intros l Hl. now apply Qle_bool_iff.
Qed.

End LineWrapperMore.

(** * The further results on the example page *)



Lemma render_no_shadow_witness :
  exists ops,
    Render.render Example.P0 Example.w_ready Example.canvasId
      Example2.o_plain = Ok ops
    /\ Forall (fun v => v = Fin 0) (Render.shadow_offsets ops).
Proof.
  eexists. split; [vm_compute; reflexivity|].
  match goal with
  | |- Forall _ (Render.shadow_offsets ?ops) =>
      apply (render_no_shadow Example.P0 Example.w_ready Example.canvasId
               Example2.o_plain ops eq_refl)
  end.
  vm_compute. reflexivity.
Defined.

Lemma session_without_failure_keeps_no_url_witness :
  exists w,
    Session.run_checked Example.P0 Example2.good_session Example.w_empty
    = Ok w
    /\ Urls.unreleased (events w) = [2]
    /\ Session.held (state w) = [2].
Proof.
  eexists. split; [vm_compute; reflexivity|].
  match goal with
  | |- Urls.unreleased (events ?w) = _ /\ _ =>
      pose proof (session_without_failure_keeps_no_url Example.P0
                    {[ Example.canvasId :=
                         {| has2d := true; cv_width := 300;
                            cv_height := 150 |} ]}
                    Example2.good_session w) as H
  end.
  split; [rewrite H; vm_compute; reflexivity | vm_compute; reflexivity].
Defined.

Lemma failed_background_load_witness :
  exists w',
    Loader.setBackgroundImageFromBytes Example.P0 Example.canvasId []
      Example.w_bgA = (Throw (js "failed to load image"), w')
    /\ state w' = state Example.w_bgA
    /\ elements w' = elements Example.w_bgA
    /\ forall ops : list Session.Op,
         In (nextUrl Example.w_bgA)
           (Urls.unreleased
              (events (Session.run_ops Example.P0 ops w'))).
Proof.
  pose proof (failed_background_load Example.P0 Example.w_bgA
                Example.canvasId [] eq_refl) as H.
  assert (E : elements Example.w_bgA !! Example.canvasId
              = Some Example2.canvas_bg) by (vm_compute; reflexivity).
  rewrite E in H. apply H. intros u Hu. vm_compute in Hu.
  injection Hu as <-. vm_compute. lia.
Defined.

Lemma failed_font_load_witness :
  exists (msg : jstring) (w' : World),
    Loader.loadFontFromBytes Example.P0 [] (js "Mine") Example.w_bgA
    = (Throw msg, w')
    /\ state w' = state Example.w_bgA
    /\ fonts w' = fonts Example.w_bgA
    /\ forall ops : list Session.Op,
         In (nextUrl Example.w_bgA)
           (Urls.unreleased
              (events (Session.run_ops Example.P0 ops w'))).
Proof.
  apply (failed_font_load Example.P0 Example.w_bgA [] (js "Mine") eq_refl).
  intros u Hu. vm_compute in Hu. injection Hu as <-. vm_compute. lia.
Defined.

Lemma successful_background_load_witness :
  exists w',
    Loader.setBackgroundImageFromBytes Example.P0 Example.canvasId
      [Byte.x02] Example.w_bgA = (Ok tt, w')
    /\ Log.revoked (events w') = [0].
Proof.
  destruct (successful_background_load Example.P0 Example.w_bgA
              Example.canvasId [Byte.x02] Example2.canvas_bg
              Example2.dims_bg)
    as (w' & Hr & Hrev & _); try (vm_compute; reflexivity).
  exists w'. split; [exact Hr|]. rewrite Hrev. vm_compute. reflexivity.
Defined.

Lemma background_then_render_witness :
  exists (ops rest : list DrawOp),
    Render.render Example.P0
      (snd (Loader.setBackgroundImageFromBytes Example.P0 Example.canvasId
              [Byte.x01] Example.w_empty))
      Example.canvasId Example.o_default = Ok ops
    /\ ops = ClearRect (Fin 0) (Fin 0) (Num.of_N 800) (Num.of_N 600)
             :: DrawImage Example2.bgA (Fin 0) (Fin 0) (Num.of_N 800)
                  (Num.of_N 600)
             :: rest.
Proof.
  destruct (background_then_render Example.P0 Example.w_empty
              Example.canvasId [Byte.x01]
              {| has2d := true; cv_width := 300; cv_height := 150 |}
              Example2.dims_bg Example.o_default)
    as (ops & rest & imgB & Hr & -> & Hops);
    try (vm_compute; reflexivity); [split; reflexivity|].
  exists ops, rest. split; [exact Hr | exact Hops].
Defined.

Lemma dispose_then_render_witness :
  Render.render Example.P0 (snd (Loader.disposeBackground Example.w_ready))
    Example.canvasId Example.o_default
  = Ok [ClearRect (Fin 0) (Fin 0) (Num.of_N 800) (Num.of_N 600)].
Proof.
  apply (dispose_then_render Example.P0 Example.w_ready Example.canvasId
           Example2.canvas_bg Example.o_default);
    vm_compute; reflexivity.
Defined.

Lemma successful_font_load_witness :
  exists w',
    Loader.loadFontFromBytes Example.P0 [Byte.x07] (js "Mine") Example.w_bgA
    = (Ok tt, w')
    /\ Urls.unreleased (events w') = [0]
    /\ Render.family (state w') Example2.o_plain = js "Mine".
Proof.
  destruct (successful_font_load Example.P0 Example.w_bgA [Byte.x07]
              (js "Mine") Example2.o_plain eq_refl)
    as (w' & Hr & _ & _ & _ & _ & _ & _ & _ & Hu & Hf & _).
  - vm_compute. repeat constructor.
  - exists w'. split; [exact Hr|]. split.
    + rewrite Hu. vm_compute. reflexivity.
    + apply Hf; [reflexivity | discriminate].
Defined.

Lemma download_cycle_witness :
  exists (d : Exporter.Download) (w1 w2 : World),
    Exporter.downloadPng true Example.canvasId None Example.w_bgA
    = (Ok (Some d), w1)
    /\ Exporter.dl_name d = js "image.png"
    /\ Exporter.downloadPng_timer d w1 = (Ok tt, w2)
    /\ Urls.unreleased (events w2) = Urls.unreleased (events Example.w_bgA).
Proof.
  pose proof (download_cycle Example.w_bgA Example.canvasId None true) as H.
  assert (E : elements Example.w_bgA !! Example.canvasId
              = Some Example2.canvas_bg) by (vm_compute; reflexivity).
  rewrite E in H.
  destruct H as (d & w1 & w2 & Hr & _ & Hn & _ & _ & Ht & Hu & _).
  - vm_compute. repeat constructor.
  - exists d, w1, w2. split; [exact Hr|].
    split; [apply Hn; now left|]. split; [exact Ht | exact Hu].
Defined.

Lemma wrapLines_when_everything_fits_witness :
  Wrap.wrapLines Example.width10 120
    (Some (js "hello  " ++ [10%N; 10%N] ++ js "big world"))
  = [js "hello"; js " "; js "big world"].
Proof.
  rewrite (wrapLines_when_everything_fits Example.width10 120);
    [reflexivity|].
  intros p Hp q [k Hk].
  assert (Hlen : (length p <= 9)%nat).
  { vm_compute in Hp. destruct Hp as [<-|[<-|[<-|[]]]]; simpl; lia. }
  apply (f_equal (@length N)) in Hk. rewrite length_app in Hk.
  unfold Example.width10. change 120%Q with (inject_Z 120).
  rewrite <- Zle_Qle. lia.
Defined.

Lemma wrapLines_line_count_witness :
  (1 <= length (Wrap.paragraphs (Some Example.blank_between))
   <= length (Wrap.wrapLines Example.width10 50
                (Some Example.blank_between)))%nat.
Proof.
  apply (wrapLines_line_count Example.width10 50
           (Some Example.blank_between)).
  unfold Qle. simpl. lia.
Defined.

Lemma wrapLines_without_whitespace_witness :
  concat (Wrap.wrapLines Example.width10 30 (Some (js "abcdefgh")))
  = js "abcdefgh".
Proof.
  apply (wrapLines_without_whitespace Example.width10 30 (js "abcdefgh"));
    [discriminate | repeat constructor].
Defined.

Lemma fallback_lines_are_full_witness :
  Lines.full_before Example.width10 30 (js "abc") (js "def").
Proof.
  apply (fallback_lines_are_full Example.width10 30 (js "abcdefgh")
           [] (js "abc") (js "def") [js "gh"]).
  reflexivity.
Defined.

Lemma words_are_not_broken_witness :
  Forall (fun l => (Example.width10 l <= 50)%Q)
    (Wrap.wrapLines Example.width10 50
       (Some (js "hello world foo   bar baz"))).
Proof.
  apply (words_are_not_broken Example.width10 50
           (Some (js "hello world foo   bar baz"))).
  - intros s q [k ->]. unfold Example.width10. rewrite length_app.
    change 50%Q with (inject_Z 50). rewrite <- !Zle_Qle. lia.
  - unfold Qle. simpl. lia.
  - intros p Hp tok Htok. vm_compute in Hp. destruct Hp as [<-|[]].
    vm_compute in Htok.
    repeat (destruct Htok as [<-|Htok]; [unfold Qle; simpl; lia|]).
    destruct Htok.
Defined.
